(** * rbacdb: the policy store of the RBAC security module

    A shallow embedding of [security/rbac/rbacdb.c] and the properties of
    its role store, permission store and binding engine.

    The two kernel lists [rbac_roles] and [rbac_perms] are modelled as
    Rocq lists in list order.  A role is only ever reached through its
    list, so a role pointer is the position of the role in [rbac_roles]
    for the duration of one call.  A permission is also referenced from
    the slot tables of the roles, so every permission carries the address
    [kzalloc] returned for it, and a slot holds such an address. *)

From Stdlib Require Import ZArith Lia DecimalString.
From stdpp Require Import base list strings.

Local Open Scope Z_scope.

(** ** Machine integers and error numbers *)

(** A C [int] is 32 bits wide; the kernel is built with wrapping signed
    arithmetic. *)
Definition INT_MAX : Z := 2 ^ 31 - 1.
Definition INT_MIN : Z := - 2 ^ 31.

Definition wrap_int (z : Z) : Z := (z + 2 ^ 31) mod 2 ^ 32 - 2 ^ 31.

(** asm-generic/errno-base.h *)
Definition ENOMEM : Z := 12.
Definition EINVAL : Z := 22.

(** ** Reference counters *)

(** Modelled from the spec: [refcount_t] and its operations come from
    linux/refcount.h, which is not part of the sources.  A counter
    "starts at 1 at creation", a binding "adds 1" and an unbinding
    "decrements" it; the saturation the kernel applies at the ends of
    the [int] range is outside this model. *)
Definition refcount_t := Z.
Definition refcount_set (n : Z) : refcount_t := n.
Definition refcount_read (r : refcount_t) : Z := r.
Definition refcount_inc (r : refcount_t) : refcount_t := r + 1.
Definition refcount_dec (r : refcount_t) : refcount_t := r - 1.

(** ** Data model *)

(** The address of a heap object; [None] of [option ptr] is [NULL]. *)
Definition ptr := positive.

(** Modelled from the spec: the enumerations of rbac.h, "one of
    {Accept, Deny}" and "one of {Read, Write}", and the object, "an
    optional resource identifier string". *)
Inductive rbac_acc_t := ACC_ACCEPT | ACC_DENY.
Inductive rbac_op_t := OP_READ | OP_WRITE.
Definition rbac_obj_t := option string.

Record rbac_permission := {
  perm_id : Z;
  perm_acc : rbac_acc_t;
  perm_op : rbac_op_t;
  perm_obj : rbac_obj_t;
  perm_ref : refcount_t
}.

Record rbac_role := {
  role_name : string;
  role_perms : list (option ptr);
  role_ref : refcount_t
}.

(** The global variables of the file. *)
Record rbac_state := {
  next_perm_id : Z;
  rbac_roles : list rbac_role;
  rbac_perms : list (ptr * rbac_permission)
}.

Definition rbac_init : rbac_state :=
  {| next_perm_id := 0; rbac_roles := []; rbac_perms := [] |}.

(** What a call leaves behind: a return value and the new globals, or an
    execution the C language gives no meaning to. *)
Inductive undefined := BufferOverflow | OutOfBounds | UseAfterFree.

Inductive result :=
  | Done (ret : Z) (st : rbac_state)
  | Undefined (why : undefined).

Definition set_roles (st : rbac_state) (roles : list rbac_role) : rbac_state :=
  {| next_perm_id := next_perm_id st; rbac_roles := roles;
     rbac_perms := rbac_perms st |}.

Definition set_perms (role : rbac_role) (perms : list (option ptr)) : rbac_role :=
  {| role_name := role_name role; role_perms := perms;
     role_ref := role_ref role |}.

Definition set_ref (perm : rbac_permission) (r : refcount_t) : rbac_permission :=
  {| perm_id := perm_id perm; perm_acc := perm_acc perm;
     perm_op := perm_op perm; perm_obj := perm_obj perm; perm_ref := r |}.

(** ** Text output *)

Definition LF : string := String (Ascii.ascii_of_nat 10) EmptyString.
Definition TAB : string := String (Ascii.ascii_of_nat 9) EmptyString.

(** sprintf's [%d] *)
Definition fmt_d (i : Z) : string := NilZero.string_of_int (Z.to_int i).

Definition acceptability_name (acc : rbac_acc_t) : string :=
  match acc with ACC_ACCEPT => "accept" | ACC_DENY => "deny" end.

Definition operation_name (op : rbac_op_t) : string :=
  match op with OP_READ => "read" | OP_WRITE => "write" end.

(** ** Lookups *)

Definition rbac_get_role_by_name (name : string) (roles : list rbac_role)
  : option (nat * rbac_role) :=
  list_find (λ r, role_name r = name) roles.

Definition rbac_get_perm_by_id (id : Z) (perms : list (ptr * rbac_permission))
  : option (nat * (ptr * rbac_permission)) :=
  if decide (id < 0) then None
  else list_find (λ e, perm_id e.2 = id) perms.

(** Following a permission pointer: the live permission at that address. *)
Definition perm_at (p : ptr) (perms : list (ptr * rbac_permission))
  : option (nat * (ptr * rbac_permission)) :=
  list_find (λ e, e.1 = p) perms.

(** ** Administrative calls *)

(** One call of the interface with its arguments; a call that allocates
    also carries what [kzalloc] returns to it. *)
Inductive op :=
  | AddRole (name : string) (kzalloc : bool)
  | RemoveRole (name : string)
  | AddPermission (acc : rbac_acc_t) (op : rbac_op_t) (obj : rbac_obj_t)
      (kzalloc : option ptr)
  | RemovePermission (id : Z)
  | BindPermission (id : Z) (name : string)
  | UnbindPermission (rid : Z) (name : string).

(** [kzalloc] does not return the address of a live permission. *)
Definition kzalloc_fresh (o : op) (st : rbac_state) : bool :=
  match o with
  | AddPermission _ _ _ (Some p) => bool_decide (p ∉ (rbac_perms st).*1)
  | _ => true
  end.

(** ** Counting references *)

(** The number of slots of a table that hold [p]. *)
Fixpoint slot_refs (p : ptr) (slots : list (option ptr)) : Z :=
  match slots with
  | [] => 0
  | s :: slots' => (if decide (s = Some p) then 1 else 0) + slot_refs p slots'
  end.

(** The number of slots that hold [p], over all roles of the store. *)
Fixpoint role_refs (p : ptr) (roles : list rbac_role) : Z :=
  match roles with
  | [] => 0
  | role :: roles' => slot_refs p (role_perms role) + role_refs p roles'
  end.

(** ** Particular runs *)

(** A permission is bound into a role and the role is then removed. *)
Definition leak_ops : list op :=
  [ AddPermission ACC_DENY OP_WRITE (Some "/etc/shadow") (Some 1%positive);
    AddRole "auditor" true;
    BindPermission 0 "auditor";
    RemoveRole "auditor" ].

(** [n] rounds of adding a permission and removing it again, the first
    round expecting id [k]. *)
Fixpoint churn (k n : nat) : list op :=
  match n with
  | O => []
  | S n' =>
      AddPermission ACC_ACCEPT OP_READ None (Some 1%positive)
      :: RemovePermission (Z.of_nat k) :: churn (S k) n'
  end.

(** 2^31 such rounds and one more permission. *)
Definition wrap_ops : list op :=
  churn 0 (Z.to_nat (2 ^ 31))
  ++ [AddPermission ACC_ACCEPT OP_READ None (Some 1%positive)].

(** The scenario of the specification: one permission, one role, with
    array sizes 16 and 4. *)
Definition setup_ops : list op :=
  [ AddPermission ACC_DENY OP_WRITE (Some "/etc/shadow") (Some 1%positive);
    AddRole "auditor" true ].

Definition shadow_perm (r : refcount_t) : rbac_permission :=
  {| perm_id := 0; perm_acc := ACC_DENY; perm_op := OP_WRITE;
     perm_obj := Some "/etc/shadow"; perm_ref := r |}.

Definition auditor_role (slots : list (option ptr)) : rbac_role :=
  {| role_name := "auditor"; role_perms := slots; role_ref := 1 |}.

(** The stores after [setup_ops], after one bind of id 0 to "auditor"
    and after a second one. *)
Definition auditor_unbound : rbac_state :=
  {| next_perm_id := 1;
     rbac_roles := [auditor_role [None; None; None; None]];
     rbac_perms := [(1%positive, shadow_perm 1)] |}.

Definition auditor_bound : rbac_state :=
  {| next_perm_id := 1;
     rbac_roles := [auditor_role [Some 1%positive; None; None; None]];
     rbac_perms := [(1%positive, shadow_perm 2)] |}.

Definition auditor_bound_twice : rbac_state :=
  {| next_perm_id := 1;
     rbac_roles :=
       [auditor_role [Some 1%positive; Some 1%positive; None; None]];
     rbac_perms := [(1%positive, shadow_perm 3)] |}.

(** The store after "auditor" is removed while slot 0 is occupied. *)
Definition auditor_removed : rbac_state :=
  {| next_perm_id := 1; rbac_roles := [];
     rbac_perms := [(1%positive, shadow_perm 2)] |}.

(** Empty stores with the id counter at [c]. *)
Definition idle (c : Z) : rbac_state :=
  {| next_perm_id := c; rbac_roles := []; rbac_perms := [] |}.

Section Rbac.

(** The two array sizes of rbac.h. *)
Variable ROLE_NAME_LEN : nat.
Variable ROLE_MAX_PERMS : nat.

(** ** Role store *)

Definition rbac_add_role (name : string) (kzalloc : bool) (st : rbac_state)
  : result :=
  match rbac_get_role_by_name name (rbac_roles st) with
  | Some _ => Done (- EINVAL) st
  | None =>
      if kzalloc then
        (* strcpy writes the name and its terminator into name[] *)
        if decide (String.length name < ROLE_NAME_LEN)%nat then
          let new_role :=
            {| role_name := name;
               role_perms := replicate ROLE_MAX_PERMS None;
               role_ref := refcount_set 1 |} in
          Done 0 (set_roles st (rbac_roles st ++ [new_role]))
        else Undefined BufferOverflow
      else Done (- ENOMEM) st
  end.

Definition rbac_remove_role (name : string) (st : rbac_state) : result :=
  match rbac_get_role_by_name name (rbac_roles st) with
  | None => Done (- EINVAL) st
  | Some (k, role) =>
      if decide (refcount_read (role_ref role) ≠ 1) then Done (- EINVAL) st
      else Done 0 (set_roles st (delete k (rbac_roles st)))
  end.

(** The inner loop of the listing: [n] iterations are left, [i] is the
    loop variable; the final [i] is returned with the buffer. *)
Fixpoint roles_info_loop (perms : list (option ptr)) (i n : nat)
    (buf : string) : nat * string :=
  match n with
  | O => (i, buf)
  | S n' =>
      let buf' :=
        match perms !! i with
        | Some (Some _) =>
            buf +:+ LF +:+ TAB +:+ "perm[" +:+ fmt_d (Z.of_nat i) +:+ "]"
        | _ => buf
        end in
      roles_info_loop perms (S i) n' buf'
  end.

Definition role_info (role : rbac_role) (buf : string) : string :=
  let buf := buf +:+ role_name role in
  let '(i, buf) := roles_info_loop (role_perms role) 0 ROLE_MAX_PERMS buf in
  let buf :=
    if decide (i = ROLE_MAX_PERMS) then buf +:+ " with no permission bind"
    else buf in
  buf +:+ LF.

Definition rbac_get_roles_info (st : rbac_state) : Z * string :=
  (0, foldl (λ buf role, role_info role buf) "" (rbac_roles st)).

(** ** Permission store *)

Definition rbac_add_permission (acc : rbac_acc_t) (op : rbac_op_t)
    (obj : rbac_obj_t) (kzalloc : option ptr) (st : rbac_state) : result :=
  match kzalloc with
  | None => Done (- ENOMEM) st
  | Some p =>
      let new_perm :=
        {| perm_id := next_perm_id st; perm_acc := acc; perm_op := op;
           perm_obj := obj; perm_ref := refcount_set 1 |} in
      Done 0 {| next_perm_id := wrap_int (next_perm_id st + 1);
                rbac_roles := rbac_roles st;
                rbac_perms := rbac_perms st ++ [(p, new_perm)] |}
  end.

Definition rbac_remove_permission (id : Z) (st : rbac_state) : result :=
  match rbac_get_perm_by_id id (rbac_perms st) with
  | None => Done (- EINVAL) st
  | Some (j, (p, perm)) =>
      if decide (refcount_read (perm_ref perm) ≠ 1) then Done (- EINVAL) st
      else Done 0 {| next_perm_id := next_perm_id st;
                     rbac_roles := rbac_roles st;
                     rbac_perms := delete j (rbac_perms st) |}
  end.

Definition perm_info (perm : rbac_permission) : string :=
  "[" +:+ fmt_d (perm_id perm) +:+ "]: "
  +:+ acceptability_name (perm_acc perm) +:+ " "
  +:+ operation_name (perm_op perm) +:+ " on "
  +:+ default "all" (perm_obj perm) +:+ LF.

Definition rbac_get_perms_info (st : rbac_state) : Z * string :=
  (0, foldl (λ buf e, buf +:+ perm_info e.2) "" (rbac_perms st)).

(** ** Binding engine *)

(** The slot scan of bind: the first NULL slot is written and the
    counter incremented before the [break]; the final [i] is returned
    with the slot table and the counter as the loop left them. *)
Fixpoint bind_loop (p : ptr) (perms : list (option ptr)) (r : refcount_t)
    (i n : nat) : nat * list (option ptr) * refcount_t :=
  match n with
  | O => (i, perms, r)
  | S n' =>
      match perms !! i with
      | Some None => (i, <[i := Some p]> perms, refcount_inc r)
      | _ => bind_loop p perms r (S i) n'
      end
  end.

Definition rbac_bind_permission (id : Z) (name : string) (st : rbac_state)
  : result :=
  match rbac_get_perm_by_id id (rbac_perms st) with
  | None => Done (- EINVAL) st
  | Some (j, (p, perm)) =>
      match rbac_get_role_by_name name (rbac_roles st) with
      | None => Done (- EINVAL) st
      | Some (k, role) =>
          let '(i, slots, r) :=
            bind_loop p (role_perms role) (perm_ref perm) 0 ROLE_MAX_PERMS in
          let st' :=
            {| next_perm_id := next_perm_id st;
               rbac_roles := <[k := set_perms role slots]> (rbac_roles st);
               rbac_perms := <[j := (p, set_ref perm r)]> (rbac_perms st) |} in
          if decide (i = ROLE_MAX_PERMS) then Done (- EINVAL) st'
          else Done 0 st'
      end
  end.

(** [role->perms[rid]]: the array has [ROLE_MAX_PERMS] elements and the
    code reads it at [rid] as given. *)
Definition slot_read (perms : list (option ptr)) (rid : Z)
  : option (option ptr) :=
  if decide (0 ≤ rid < Z.of_nat ROLE_MAX_PERMS) then perms !! Z.to_nat rid
  else None.

Definition rbac_unbind_permission (rid : Z) (name : string) (st : rbac_state)
  : result :=
  match rbac_get_role_by_name name (rbac_roles st) with
  | None => Done (- EINVAL) st
  | Some (k, role) =>
      match slot_read (role_perms role) rid with
      | None => Undefined OutOfBounds
      | Some None => Done (- EINVAL) st
      | Some (Some p) =>
          match perm_at p (rbac_perms st) with
          | None => Undefined UseAfterFree
          | Some (j, (_, perm)) =>
              let slots := <[Z.to_nat rid := None]> (role_perms role) in
              Done 0
                {| next_perm_id := next_perm_id st;
                   rbac_roles := <[k := set_perms role slots]> (rbac_roles st);
                   rbac_perms :=
                     <[j := (p, set_ref perm (refcount_dec (perm_ref perm)))]>
                       (rbac_perms st) |}
          end
      end
  end.

(** ** Runs of administrative calls *)

Definition exec (o : op) (st : rbac_state) : result :=
  match o with
  | AddRole name kzalloc => rbac_add_role name kzalloc st
  | RemoveRole name => rbac_remove_role name st
  | AddPermission acc op obj kzalloc =>
      rbac_add_permission acc op obj kzalloc st
  | RemovePermission id => rbac_remove_permission id st
  | BindPermission id name => rbac_bind_permission id name st
  | UnbindPermission rid name => rbac_unbind_permission rid name st
  end.

(** A run executes the calls in order from a state; it has no final
    state when the allocator is asked to hand out a live address or a
    call has no defined behaviour. *)
Fixpoint run (ops : list op) (st : rbac_state) : option rbac_state :=
  match ops with
  | [] => Some st
  | o :: ops' =>
      if kzalloc_fresh o st then
        match exec o st with
        | Done _ st' => run ops' st'
        | Undefined _ => None
        end
      else None
  end.

Definition reachable (st : rbac_state) : Prop :=
  ∃ ops, run ops rbac_init = Some st.

(** The ids handed out along a run: the id field of the permission each
    successful rbac_add_permission appended to the list. *)
Definition issued_id (o : op) (ret : Z) (st' : rbac_state) : list Z :=
  match o with
  | AddPermission _ _ _ _ =>
      if decide (ret = 0) then
        match last (rbac_perms st') with
        | Some e => [perm_id e.2]
        | None => []
        end
      else []
  | _ => []
  end.

Fixpoint issued_ids (ops : list op) (st : rbac_state) : list Z :=
  match ops with
  | [] => []
  | o :: ops' =>
      if kzalloc_fresh o st then
        match exec o st with
        | Done ret st' => issued_id o ret st' ++ issued_ids ops' st'
        | Undefined _ => []
        end
      else []
  end.

(** ** Well-formed stores *)

Record wf_state (st : rbac_state) : Prop := {
  wf_slots : ∀ role, role ∈ rbac_roles st →
    length (role_perms role) = ROLE_MAX_PERMS;
  wf_addr : NoDup (rbac_perms st).*1;
  wf_live : ∀ role p, role ∈ rbac_roles st → Some p ∈ role_perms role →
    p ∈ (rbac_perms st).*1;
  wf_refs : ∀ p perm, (p, perm) ∈ rbac_perms st →
    1 + role_refs p (rbac_roles st) ≤ perm_ref perm
}.

(** The lowest-index empty slot of a table (first fit). *)
Definition first_fit (slots : list (option ptr)) (i : nat) : Prop :=
  slots !! i = Some None ∧ ∀ i', (i' < i)%nat → slots !! i' ≠ Some None.

(** The return value of a call that has one. *)
Definition ret_of (r : result) : option Z :=
  match r with Done ret _ => Some ret | Undefined _ => None end.

(** Reference-count accounting: every permission of the store counts its
    own holding and the occupied slots that hold it, over the roles of
    the store. *)
Definition refcount_accounting (st : rbac_state) : Prop :=
  ∀ p perm, (p, perm) ∈ rbac_perms st →
    perm_ref perm = 1 + role_refs p (rbac_roles st).

(** A list of ids in issue order is strictly increasing. *)
Definition strictly_increasing (ids : list Z) : Prop :=
  ∀ i j a b, (i < j)%nat → ids !! i = Some a → ids !! j = Some b → a < b.

(** ** Further notions for the stores *)

(** The names of the roles of the store, in list order. *)
Definition role_names (st : rbac_state) : list string :=
  role_name <$> rbac_roles st.

(** The ids of the permissions of the store, in list order. *)
Definition perm_ids (st : rbac_state) : list Z :=
  (λ e, perm_id e.2) <$> rbac_perms st.

(** What a permission's count holds beyond its own holding and the
    slots that hold it. *)
Definition surplus (st : rbac_state) (p : ptr) (perm : rbac_permission) : Z :=
  perm_ref perm - (1 + role_refs p (rbac_roles st)).

Definition is_remove_role (o : op) : bool :=
  match o with RemoveRole _ => true | _ => false end.

(** The number of empty slots of a table, and the table with every
    empty slot pointing to [p]. *)
Fixpoint count_empty (slots : list (option ptr)) : nat :=
  match slots with
  | [] => O
  | None :: slots' => S (count_empty slots')
  | Some _ :: slots' => count_empty slots'
  end.

Definition fill (p : ptr) (slots : list (option ptr)) : list (option ptr) :=
  (λ s, match s with None => Some p | Some q => Some q end) <$> slots.

(** The store the run [wrap_ops] ends in: its one permission has the
    id the counter wrapped to. *)
Definition wrapped_perm : rbac_permission :=
  {| perm_id := INT_MIN; perm_acc := ACC_ACCEPT; perm_op := OP_READ;
     perm_obj := None; perm_ref := 1 |}.

Definition wrapped : rbac_state :=
  {| next_perm_id := INT_MIN + 1; rbac_roles := [];
     rbac_perms := [(1%positive, wrapped_perm)] |}.

(** The store after all four slots of "auditor" are bound to
    permission 0, and the store after the leak when permission 0 is
    tried and "auditor" is created again. *)
Definition auditor_full : rbac_state :=
  {| next_perm_id := 1;
     rbac_roles :=
       [auditor_role [Some 1%positive; Some 1%positive;
                      Some 1%positive; Some 1%positive]];
     rbac_perms := [(1%positive, shadow_perm 5)] |}.

Definition auditor_again : rbac_state :=
  {| next_perm_id := 1;
     rbac_roles := [auditor_role [None; None; None; None]];
     rbac_perms := [(1%positive, shadow_perm 2)] |}.

(** The permission the lookup by id returns when the id is not negative:
    the first one in list order that has the id. *)
Definition first_with_id (id : Z) (perms : list (ptr * rbac_permission))
    (j : nat) (p : ptr) (perm : rbac_permission) : Prop :=
  perms !! j = Some (p, perm) ∧ perm_id perm = id ∧
  ∀ j' e', perms !! j' = Some e' → (j' < j)%nat → perm_id e'.2 ≠ id.

(** The store [wrapped] after the role "auditor" is added to it. *)
Definition wrapped_auditor : rbac_state :=
  {| next_perm_id := INT_MIN + 1;
     rbac_roles := [auditor_role [None; None; None; None]];
     rbac_perms := [(1%positive, wrapped_perm)] |}.

(** The store [auditor_unbound] after permission 0 is removed. *)
Definition auditor_alone : rbac_state :=
  {| next_perm_id := 1;
     rbac_roles := [auditor_role [None; None; None; None]];
     rbac_perms := [] |}.

(** ** Reference counting lemmas *)

Lemma slot_refs_nonneg p slots : 0 ≤ slot_refs p slots.
Proof. induction slots as [|s slots IH]; simpl; [lia|]. case_decide; lia. Qed.

Lemma role_refs_nonneg p roles : 0 ≤ role_refs p roles.
Proof.
  induction roles as [|role roles IH]; simpl; [lia|].
  pose proof (slot_refs_nonneg p (role_perms role)). lia.
Qed.

Lemma slot_refs_replicate p n : slot_refs p (replicate n None) = 0.
Proof. induction n as [|n IH]; simpl; [done|]. by rewrite IH. Qed.

Lemma slot_refs_zero p slots : slot_refs p slots = 0 ↔ Some p ∉ slots.
Proof.
  induction slots as [|s slots IH]; simpl.
  - split; [intros _ H; inversion H | done].
  - pose proof (slot_refs_nonneg p slots). rewrite not_elem_of_cons.
    case_decide as Hs.
    + split; [lia|]. intros [Hne _]. by destruct Hne.
    + rewrite Z.add_0_l, IH. split; [|tauto]. intros ?. split; [congruence|done].
Qed.

Lemma slot_refs_insert p slots i s s' :
  slots !! i = Some s →
  slot_refs p (<[i := s']> slots) =
    slot_refs p slots - (if decide (s = Some p) then 1 else 0)
    + (if decide (s' = Some p) then 1 else 0).
Proof.
  revert i. induction slots as [|x slots IH]; intros [|i] Hi; simplify_eq/=.
  - lia.
  - rewrite (IH i Hi). lia.
Qed.

Lemma role_refs_app p roles1 roles2 :
  role_refs p (roles1 ++ roles2) = role_refs p roles1 + role_refs p roles2.
Proof. induction roles1 as [|r roles1 IH]; simpl; [done|]. rewrite IH. lia. Qed.

Lemma role_refs_insert p roles k role role' :
  roles !! k = Some role →
  role_refs p (<[k := role']> roles) =
    role_refs p roles - slot_refs p (role_perms role)
    + slot_refs p (role_perms role').
Proof.
  revert k. induction roles as [|x roles IH]; intros [|k] Hk; simplify_eq/=.
  - lia.
  - rewrite (IH k Hk). lia.
Qed.

Lemma role_refs_delete p roles k :
  role_refs p (delete k roles) ≤ role_refs p roles.
Proof.
  revert k. induction roles as [|x roles IH]; intros [|k]; simpl; try lia.
  - pose proof (slot_refs_nonneg p (role_perms x)). lia.
  - specialize (IH k). change (list_delete k roles) with (delete k roles). lia.
Qed.

Lemma role_refs_zero p roles :
  role_refs p roles = 0 ↔ ∀ role, role ∈ roles → Some p ∉ role_perms role.
Proof.
  induction roles as [|x roles IH]; simpl.
  - split; [intros _ ? H; inversion H | done].
  - pose proof (slot_refs_nonneg p (role_perms x)).
    pose proof (role_refs_nonneg p roles). split.
    + intros ? role [->|?]%elem_of_cons.
      * apply slot_refs_zero. lia.
      * apply IH; [lia|done].
    + intros Hall.
      assert (slot_refs p (role_perms x) = 0) as ->.
      { apply slot_refs_zero, Hall. left. }
      assert (role_refs p roles = 0) as ->; [|done].
      apply IH. intros. apply Hall. by right.
Qed.

(** ** The slot scan *)

Lemma bind_loop_spec p slots r i n i' slots' r' :
  bind_loop p slots r i n = (i', slots', r') →
  (∀ j, (i ≤ j < i')%nat → slots !! j ≠ Some None) ∧
  ((i' = (i + n)%nat ∧ slots' = slots ∧ r' = r) ∨
   ((i ≤ i' < i + n)%nat ∧ slots !! i' = Some None ∧
    slots' = <[i' := Some p]> slots ∧ r' = refcount_inc r)).
Proof.
  revert i. induction n as [|n IH]; intros i; simpl.
  - intros [= <- <- <-]. split; [lia|]. left. split_and!; [lia|done..].
  - destruct (slots !! i) as [[q|]|] eqn:Hi.
    + intros [Hlow Hcase]%IH. split.
      * intros j Hj. destruct (decide (j = i)) as [->|]; [congruence|].
        apply Hlow. lia.
      * destruct Hcase as [(-> & -> & ->)|(? & ? & ? & ?)];
          [left|right]; split_and!; try done; lia.
    + intros [= <- <- <-]. split; [lia|]. right. split_and!; try done; lia.
    + intros [Hlow Hcase]%IH. split.
      * intros j Hj. destruct (decide (j = i)) as [->|]; [congruence|].
        apply Hlow. lia.
      * destruct Hcase as [(-> & -> & ->)|(? & ? & ? & ?)];
          [left|right]; split_and!; try done; lia.
Qed.

(** ** Well-formedness is preserved by every call *)

Lemma wf_init : wf_state rbac_init.
Proof.
  split; simpl.
  - intros ? H; inversion H.
  - constructor.
  - intros ? ? H; inversion H.
  - intros ? ? H; inversion H.
Qed.

Lemma perms_addr_insert (perms : list (ptr * rbac_permission)) j p perm perm' :
  perms !! j = Some (p, perm) → (<[j := (p, perm')]> perms).*1 = perms.*1.
Proof.
  intros Hj. rewrite list_fmap_insert. apply list_insert_id.
  by rewrite list_lookup_fmap, Hj.
Qed.

Lemma perms_addr_inj (perms : list (ptr * rbac_permission)) j j' p perm perm' :
  NoDup perms.*1 →
  perms !! j = Some (p, perm) → perms !! j' = Some (p, perm') → j = j'.
Proof.
  intros Hnd Hj Hj'. eapply (NoDup_lookup _ _ _ p Hnd);
    rewrite list_lookup_fmap; [by rewrite Hj | by rewrite Hj'].
Qed.

Lemma wf_rebind st k role slots j p perm r :
  wf_state st →
  rbac_roles st !! k = Some role →
  rbac_perms st !! j = Some (p, perm) →
  length slots = ROLE_MAX_PERMS →
  (∀ q, Some q ∈ slots → q ∈ (rbac_perms st).*1) →
  (∀ q, slot_refs q slots - slot_refs q (role_perms role)
        ≤ if decide (q = p) then r - perm_ref perm else 0) →
  wf_state {| next_perm_id := next_perm_id st;
              rbac_roles := <[k := set_perms role slots]> (rbac_roles st);
              rbac_perms := <[j := (p, set_ref perm r)]> (rbac_perms st) |}.
Proof.
  intros [Hslots Haddr Hlive Hrefs] Hk Hj Hlen Hin Hdelta. split; simpl.
  - intros role' [k' Hk']%list_elem_of_lookup_1.
    apply list_lookup_insert_Some in Hk' as [(_ & <- & _)|[_ Hk']]; [done|].
    eapply Hslots, list_elem_of_lookup_2, Hk'.
  - by rewrite (perms_addr_insert _ _ _ _ _ Hj).
  - rewrite (perms_addr_insert _ _ _ _ _ Hj).
    intros role' q [k' Hk']%list_elem_of_lookup_1.
    apply list_lookup_insert_Some in Hk' as [(_ & <- & _)|[_ Hk']]; simpl.
    + apply Hin.
    + eapply Hlive, list_elem_of_lookup_2, Hk'.
  - intros q pm [j' Hj']%list_elem_of_lookup_1.
    rewrite (role_refs_insert _ _ _ _ _ Hk); simpl.
    specialize (Hdelta q).
    apply list_lookup_insert_Some in Hj' as [(_ & [= <- <-] & _)|[Hne Hj']].
    + rewrite decide_True in Hdelta by done. simpl.
      pose proof (Hrefs p perm (list_elem_of_lookup_2 _ _ _ Hj)). lia.
    + rewrite decide_False in Hdelta.
      * pose proof (Hrefs q pm (list_elem_of_lookup_2 _ _ _ Hj')). lia.
      * intros ->. apply Hne. eapply perms_addr_inj; eauto.
Qed.

Lemma rbac_add_role_wf name kzalloc st ret st' :
  wf_state st → rbac_add_role name kzalloc st = Done ret st' → wf_state st'.
Proof.
  intros Hwf. unfold rbac_add_role.
  destruct (rbac_get_role_by_name _ _); [by intros [= _ <-]|].
  destruct kzalloc; [|by intros [= _ <-]].
  case_decide; [|done]. intros [= _ <-].
  destruct Hwf as [Hslots Haddr Hlive Hrefs]. split; simpl; [| done | |].
  - intros role [?| ->%list_elem_of_singleton]%elem_of_app; [by apply Hslots|].
    apply length_replicate.
  - intros role p [?| ->%list_elem_of_singleton]%elem_of_app; [by apply Hlive|].
    by intros ?%elem_of_replicate_inv.
  - intros p perm Hp. rewrite role_refs_app. simpl.
    rewrite slot_refs_replicate. specialize (Hrefs p perm Hp). lia.
Qed.

Lemma rbac_remove_role_wf name st ret st' :
  wf_state st → rbac_remove_role name st = Done ret st' → wf_state st'.
Proof.
  intros Hwf. unfold rbac_remove_role.
  destruct (rbac_get_role_by_name _ _) as [[k role]|]; [|by intros [= _ <-]].
  case_decide; intros [= _ <-]; [done|].
  destruct Hwf as [Hslots Haddr Hlive Hrefs]. split; simpl; [| done | |].
  - intros role' ?%list_elem_of_delete_inv. by apply Hslots.
  - intros role' p ?%list_elem_of_delete_inv. by apply Hlive.
  - intros p perm Hp. specialize (Hrefs p perm Hp).
    pose proof (role_refs_delete p (rbac_roles st) k). lia.
Qed.

Lemma rbac_add_permission_wf acc o obj kzalloc st ret st' :
  wf_state st →
  kzalloc_fresh (AddPermission acc o obj kzalloc) st = true →
  rbac_add_permission acc o obj kzalloc st = Done ret st' → wf_state st'.
Proof.
  intros Hwf Hfresh. unfold rbac_add_permission.
  destruct kzalloc as [p|]; intros [= _ <-]; [|done].
  apply bool_decide_eq_true in Hfresh.
  destruct Hwf as [Hslots Haddr Hlive Hrefs]. split; simpl; [done | | |].
  - rewrite fmap_app. apply NoDup_app. split_and!; [done| |].
    + intros q Hq ->%list_elem_of_singleton. done.
    + apply NoDup_singleton.
  - intros role q Hrole Hq. rewrite fmap_app, elem_of_app. left. eauto.
  - intros q perm [?|[= -> ->]%list_elem_of_singleton]%elem_of_app;
      [by apply Hrefs|]. simpl.
    assert (role_refs p (rbac_roles st) = 0) as ->; [|done].
    apply role_refs_zero. intros role Hrole Hp. apply Hfresh. eauto.
Qed.

Lemma rbac_remove_permission_wf id st ret st' :
  wf_state st → rbac_remove_permission id st = Done ret st' → wf_state st'.
Proof.
  intros Hwf. unfold rbac_remove_permission, rbac_get_perm_by_id.
  case_decide; [by intros [= _ <-]|].
  destruct (list_find _ _) as [[j [p perm]]|] eqn:Hfind; [|by intros [= _ <-]].
  apply list_find_Some in Hfind as (Hj & _ & _).
  case_decide as Hone; intros [= _ <-]; [done|].
  unfold refcount_read in Hone.
  destruct Hwf as [Hslots Haddr Hlive Hrefs].
  assert (∀ role, role ∈ rbac_roles st → Some p ∉ role_perms role) as Hfree.
  { apply role_refs_zero. pose proof (role_refs_nonneg p (rbac_roles st)).
    pose proof (Hrefs p perm (list_elem_of_lookup_2 _ _ _ Hj)). lia. }
  split; simpl; [done | | |].
  - eapply sublist_NoDup; [done|]. apply fmap_sublist, sublist_delete.
  - intros role q Hrole Hq.
    pose proof (Hlive role q Hrole Hq) as Hin.
    apply list_elem_of_fmap in Hin as [[q' pm] [-> Hin]].
    apply list_elem_of_lookup_1 in Hin as [j' Hj']. simpl in *.
    assert (j' ≠ j) as Hne.
    { intros ->. rewrite Hj in Hj'. injection Hj' as <- <-.
      by apply (Hfree role). }
    apply list_elem_of_fmap. exists (q', pm). split; [done|].
    destruct (decide (j' < j)%nat).
    + eapply list_elem_of_lookup_2. by rewrite list_lookup_delete_lt.
    + apply (list_elem_of_lookup_2 _ (j' - 1)%nat).
      rewrite list_lookup_delete_ge by lia.
      by replace (S (j' - 1)) with j' by lia.
  - intros q pm ?%list_elem_of_delete_inv. by apply Hrefs.
Qed.

(** ** What bind and unbind do *)

Lemma set_perms_id role : set_perms role (role_perms role) = role.
Proof. by destruct role. Qed.

Lemma set_ref_id perm : set_ref perm (perm_ref perm) = perm.
Proof. by destruct perm. Qed.

Lemma rbac_get_perm_by_id_Some id perms j e :
  rbac_get_perm_by_id id perms = Some (j, e) →
  0 ≤ id ∧ perms !! j = Some e ∧ perm_id e.2 = id ∧
  ∀ j' e', perms !! j' = Some e' → (j' < j)%nat → perm_id e'.2 ≠ id.
Proof.
  unfold rbac_get_perm_by_id. case_decide; [done|].
  intros (? & ? & ?)%list_find_Some. split_and!; [lia|done..].
Qed.

Lemma rbac_get_perm_by_id_None id perms :
  rbac_get_perm_by_id id perms = None ↔
  id < 0 ∨ ∀ e, e ∈ perms → perm_id e.2 ≠ id.
Proof.
  unfold rbac_get_perm_by_id. case_decide.
  - split; [by left | done].
  - rewrite list_find_None, Forall_forall. split; [by right|].
    by intros [?|?].
Qed.

Lemma rbac_bind_permission_inv id name st ret st' :
  rbac_bind_permission id name st = Done ret st' →
  (ret = - EINVAL ∧ st' = st ∧
   (rbac_get_perm_by_id id (rbac_perms st) = None ∨
    rbac_get_role_by_name name (rbac_roles st) = None ∨
    ∃ k role, rbac_get_role_by_name name (rbac_roles st) = Some (k, role) ∧
      ∀ i, (i < ROLE_MAX_PERMS)%nat → role_perms role !! i ≠ Some None)) ∨
  (ret = 0 ∧ ∃ j p perm k role i,
     rbac_get_perm_by_id id (rbac_perms st) = Some (j, (p, perm)) ∧
     rbac_get_role_by_name name (rbac_roles st) = Some (k, role) ∧
     (i < ROLE_MAX_PERMS)%nat ∧ role_perms role !! i = Some None ∧
     (∀ i', (i' < i)%nat → role_perms role !! i' ≠ Some None) ∧
     st' = {| next_perm_id := next_perm_id st;
              rbac_roles :=
                <[k := set_perms role (<[i := Some p]> (role_perms role))]>
                  (rbac_roles st);
              rbac_perms :=
                <[j := (p, set_ref perm (perm_ref perm + 1))]>
                  (rbac_perms st) |}).
Proof.
  unfold rbac_bind_permission.
  destruct (rbac_get_perm_by_id _ _) as [[j [p perm]]|] eqn:Hperm;
    [|intros [= <- <-]; left; auto].
  destruct (rbac_get_role_by_name _ _) as [[k role]|] eqn:Hrole;
    [|intros [= <- <-]; left; auto].
  destruct (bind_loop _ _ _ _ _) as [[i slots] r] eqn:Hloop.
  apply bind_loop_spec in Hloop as [Hlow Hcase].
  apply rbac_get_perm_by_id_Some in Hperm as Hj. destruct Hj as (_ & Hj & _).
  pose proof Hrole as (Hk & _ & _)%list_find_Some.
  destruct Hcase as [(-> & -> & ->)|(Hi & Hempty & -> & ->)].
  - rewrite decide_True by done. intros [= <- <-]. left.
    split_and!; [done| |].
    + rewrite set_perms_id, set_ref_id, !list_insert_id by done.
      by destruct st.
    + right; right. exists k, role. split; [done|].
      intros i ?. apply Hlow. lia.
  - rewrite decide_False by lia. intros [= <- <-]. right.
    split; [done|]. exists j, p, perm, k, role, i.
    split_and!; try done; [lia|]. intros i' ?. apply Hlow. lia.
Qed.

Lemma rbac_bind_permission_total id name st :
  ∃ ret st', rbac_bind_permission id name st = Done ret st'.
Proof.
  unfold rbac_bind_permission.
  destruct (rbac_get_perm_by_id _ _) as [[j [p perm]]|]; [|eauto].
  destruct (rbac_get_role_by_name _ _) as [[k role]|]; [|eauto].
  destruct (bind_loop _ _ _ _ _) as [[i slots] r].
  case_decide; eauto.
Qed.

Lemma rbac_bind_permission_ok id name st j p perm k role i :
  rbac_get_perm_by_id id (rbac_perms st) = Some (j, (p, perm)) →
  rbac_get_role_by_name name (rbac_roles st) = Some (k, role) →
  (i < ROLE_MAX_PERMS)%nat → role_perms role !! i = Some None →
  (∀ i', (i' < i)%nat → role_perms role !! i' ≠ Some None) →
  rbac_bind_permission id name st =
    Done 0 {| next_perm_id := next_perm_id st;
              rbac_roles :=
                <[k := set_perms role (<[i := Some p]> (role_perms role))]>
                  (rbac_roles st);
              rbac_perms :=
                <[j := (p, set_ref perm (perm_ref perm + 1))]>
                  (rbac_perms st) |}.
Proof.
  intros Hperm Hrole Hi Hempty Hlow.
  destruct (rbac_bind_permission_total id name st) as (ret & st' & Hbind).
  rewrite Hbind.
  apply rbac_bind_permission_inv in Hbind
    as [(_ & _ & [?|[?|(k' & role' & ? & Hfull)]])
       |(-> & j' & p' & perm' & k' & role' & i' & ? & ? & ? & ? & Hlow' & ->)];
    simplify_eq.
  - by destruct (Hfull i Hi).
  - assert (i' = i) as ->; [|done].
    destruct (Nat.lt_trichotomy i' i) as [?|[?|?]]; [|done|].
    + by destruct (Hlow i').
    + by destruct (Hlow' i).
Qed.

Lemma perm_at_Some p perms j e :
  perm_at p perms = Some (j, e) → perms !! j = Some e ∧ e.1 = p.
Proof. by intros (? & ? & _)%list_find_Some. Qed.

Lemma perm_at_live p (perms : list (ptr * rbac_permission)) :
  p ∈ perms.*1 → is_Some (perm_at p perms).
Proof.
  intros [e [-> He]]%list_elem_of_fmap. by eapply list_find_elem_of.
Qed.

Lemma slot_read_Some slots rid s :
  slot_read slots rid = Some s ↔
  0 ≤ rid < Z.of_nat ROLE_MAX_PERMS ∧ slots !! Z.to_nat rid = Some s.
Proof. unfold slot_read. case_decide; [tauto|]. split; [done|tauto]. Qed.

Lemma rbac_unbind_permission_inv rid name st ret st' :
  rbac_unbind_permission rid name st = Done ret st' →
  (ret = - EINVAL ∧ st' = st ∧
   (rbac_get_role_by_name name (rbac_roles st) = None ∨
    ∃ k role, rbac_get_role_by_name name (rbac_roles st) = Some (k, role) ∧
      slot_read (role_perms role) rid = Some None)) ∨
  (ret = 0 ∧ ∃ k role p j perm,
     rbac_get_role_by_name name (rbac_roles st) = Some (k, role) ∧
     slot_read (role_perms role) rid = Some (Some p) ∧
     perm_at p (rbac_perms st) = Some (j, (p, perm)) ∧
     st' = {| next_perm_id := next_perm_id st;
              rbac_roles :=
                <[k := set_perms role
                         (<[Z.to_nat rid := None]> (role_perms role))]>
                  (rbac_roles st);
              rbac_perms :=
                <[j := (p, set_ref perm (perm_ref perm - 1))]>
                  (rbac_perms st) |}).
Proof.
  unfold rbac_unbind_permission.
  destruct (rbac_get_role_by_name _ _) as [[k role]|] eqn:Hrole;
    [|intros [= <- <-]; left; auto].
  destruct (slot_read _ _) as [[p|]|] eqn:Hslot; [| |done].
  - destruct (perm_at _ _) as [[j [q perm]]|] eqn:Hat; [|done].
    pose proof Hat as [_ Hq]%perm_at_Some. simpl in Hq. subst q.
    intros [= <- <-]. right. split; [done|].
    by exists k, role, p, j, perm.
  - intros [= <- <-]. left. split_and!; [done..|]. right. eauto.
Qed.

Lemma elem_of_slots_insert (slots : list (option ptr)) i s q :
  Some q ∈ <[i := s]> slots → s = Some q ∨ Some q ∈ slots.
Proof.
  intros [i' Hi']%list_elem_of_lookup_1.
  apply list_lookup_insert_Some in Hi' as [(_ & -> & _)|[_ Hi']]; [by left|].
  right. eapply list_elem_of_lookup_2, Hi'.
Qed.

Lemma rbac_bind_permission_wf id name st ret st' :
  wf_state st → rbac_bind_permission id name st = Done ret st' → wf_state st'.
Proof.
  intros Hwf
    [(_ & -> & _)
    |(_ & j & p & perm & k & role & i & Hperm & Hrole & _ & Hi & _ & ->)]
    %rbac_bind_permission_inv; [done|].
  apply rbac_get_perm_by_id_Some in Hperm as (_ & Hj & _).
  apply list_find_Some in Hrole as (Hk & _ & _).
  pose proof (list_elem_of_lookup_2 _ _ _ Hk) as Hin.
  apply wf_rebind; try done.
  - rewrite length_insert. by apply (wf_slots _ Hwf).
  - intros q [[= ->]|?]%elem_of_slots_insert.
    + apply list_elem_of_fmap. exists (q, perm).
      split; [done|]. eapply list_elem_of_lookup_2, Hj.
    + by apply (wf_live _ Hwf role).
  - intros q. rewrite (slot_refs_insert _ _ _ _ _ Hi).
    repeat case_decide; simplify_eq; lia.
Qed.

Lemma rbac_unbind_permission_wf rid name st ret st' :
  wf_state st → rbac_unbind_permission rid name st = Done ret st' →
  wf_state st'.
Proof.
  intros Hwf
    [(_ & -> & _)
    |(_ & k & role & p & j & perm & Hrole & Hslot & Hat & ->)]
    %rbac_unbind_permission_inv; [done|].
  apply perm_at_Some in Hat as [Hj _].
  apply slot_read_Some in Hslot as [_ Hslot].
  apply list_find_Some in Hrole as (Hk & _ & _).
  pose proof (list_elem_of_lookup_2 _ _ _ Hk) as Hin.
  apply wf_rebind; try done.
  - rewrite length_insert. by apply (wf_slots _ Hwf).
  - intros q [[=]|?]%elem_of_slots_insert. by apply (wf_live _ Hwf role).
  - intros q. rewrite (slot_refs_insert _ _ _ _ _ Hslot).
    repeat case_decide; simplify_eq; lia.
Qed.

Lemma exec_wf o st ret st' :
  wf_state st → kzalloc_fresh o st = true → exec o st = Done ret st' →
  wf_state st'.
Proof.
  destruct o; simpl; intros Hwf Hfresh Hexec.
  - eapply rbac_add_role_wf; eauto.
  - eapply rbac_remove_role_wf; eauto.
  - eapply rbac_add_permission_wf; eauto.
  - eapply rbac_remove_permission_wf; eauto.
  - eapply rbac_bind_permission_wf; eauto.
  - eapply rbac_unbind_permission_wf; eauto.
Qed.

Lemma run_wf ops st st' : wf_state st → run ops st = Some st' → wf_state st'.
Proof.
  revert st. induction ops as [|o ops IH]; simpl; intros st Hwf.
  - by intros [= <-].
  - destruct (kzalloc_fresh o st) eqn:Hfresh; [|done].
    destruct (exec o st) as [ret st1|] eqn:Hexec; [|done].
    apply IH. eapply exec_wf; eauto.
Qed.

Lemma reachable_wf st : reachable st → wf_state st.
Proof. intros [ops Hrun]. eapply run_wf, Hrun. apply wf_init. Qed.

(** X5. In every reachable store a permission's count is at least one plus
    the number of slots that hold it. *)
Corollary rbac_refcount_lower_bound st p perm :
  reachable st → (p, perm) ∈ rbac_perms st →
  1 + role_refs p (rbac_roles st) ≤ perm_ref perm.
Proof. intros Hwf%reachable_wf. by apply (wf_refs _ Hwf). Qed.

Lemma run_app ops1 ops2 st :
  run (ops1 ++ ops2) st = run ops1 st ≫= run ops2.
Proof.
  revert st. induction ops1 as [|o ops1 IH]; simpl; intros st; [done|].
  destruct (kzalloc_fresh o st); [|done]. by destruct (exec o st).
Qed.

Lemma reachable_step o st ret st' :
  reachable st → kzalloc_fresh o st = true → exec o st = Done ret st' →
  reachable st'.
Proof.
  intros [ops Hrun] Hfresh Hexec. exists (ops ++ [o]).
  rewrite run_app, Hrun. simpl. by rewrite Hfresh, Hexec.
Qed.

Lemma list_find_insert_same {A} (P : A → Prop) `{!∀ x, Decision (P x)}
    (l : list A) i x y :
  list_find P l = Some (i, x) → P y → list_find P (<[i := y]> l) = Some (i, y).
Proof.
  intros (Hi & _ & Hlow)%list_find_Some Hy. apply list_find_Some.
  split_and!; [|done|].
  - apply list_lookup_insert_eq. by eapply lookup_lt_Some.
  - intros j z Hj Hlt. rewrite list_lookup_insert_ne in Hj by lia. eauto.
Qed.

Lemma perm_at_lookup p (perms : list (ptr * rbac_permission)) j perm :
  NoDup perms.*1 → perms !! j = Some (p, perm) →
  perm_at p perms = Some (j, (p, perm)).
Proof.
  intros Hnd Hj. apply list_find_Some. split_and!; [done..|].
  intros j' [q pm] Hj' Hlt Hq. simpl in Hq. subst q.
  pose proof (perms_addr_inj _ _ _ _ _ _ Hnd Hj Hj'). lia.
Qed.

Lemma wf_ref_pos st p perm :
  wf_state st → (p, perm) ∈ rbac_perms st → 1 ≤ perm_ref perm.
Proof.
  intros Hwf Hp. pose proof (wf_refs _ Hwf p perm Hp).
  pose proof (role_refs_nonneg p (rbac_roles st)). lia.
Qed.

(** Unbinding the slot a bind has just written restores the store. *)
Lemma rbac_bind_unbind id name st j p perm k role i :
  wf_state st →
  rbac_get_perm_by_id id (rbac_perms st) = Some (j, (p, perm)) →
  rbac_get_role_by_name name (rbac_roles st) = Some (k, role) →
  (i < ROLE_MAX_PERMS)%nat → role_perms role !! i = Some None →
  rbac_unbind_permission (Z.of_nat i) name
    {| next_perm_id := next_perm_id st;
       rbac_roles :=
         <[k := set_perms role (<[i := Some p]> (role_perms role))]>
           (rbac_roles st);
       rbac_perms :=
         <[j := (p, set_ref perm (perm_ref perm + 1))]> (rbac_perms st) |}
  = Done 0 st.
Proof.
  intros Hwf Hperm Hrole Hi Hempty.
  apply rbac_get_perm_by_id_Some in Hperm as (_ & Hj & _).
  pose proof (lookup_lt_Some _ _ _ Hj) as Hjlt.
  pose proof (lookup_lt_Some _ _ _ Hempty) as Hilt.
  pose proof Hrole as (Hk & Hname & _)%list_find_Some.
  unfold rbac_unbind_permission, rbac_get_role_by_name. simpl.
  erewrite list_find_insert_same; [|exact Hrole|done]. simpl.
  unfold slot_read. rewrite decide_True by lia. rewrite Nat2Z.id.
  rewrite list_lookup_insert_eq by done.
  erewrite perm_at_lookup;
    [|by rewrite (perms_addr_insert _ _ _ _ _ Hj); apply (wf_addr _ Hwf)
     |by apply list_lookup_insert_eq].
  rewrite !list_insert_insert_eq. unfold set_perms, set_ref, refcount_dec.
  simpl.
  rewrite (list_insert_id (role_perms role)) by done.
  replace (perm_ref perm + 1 - 1) with (perm_ref perm) by lia.
  fold (set_perms role (role_perms role)). fold (set_ref perm (perm_ref perm)).
  rewrite set_perms_id, set_ref_id, !list_insert_id by done.
  by destruct st.
Qed.

Lemma first_fit_exists (slots : list (option ptr)) a :
  slots !! a = Some None → ∃ i, first_fit slots i.
Proof.
  intros Ha.
  destruct (list_find_elem_of (λ s : option ptr, s = None) slots None)
    as [[i s] Hfind]; [by eapply list_elem_of_lookup_2|done|].
  apply list_find_Some in Hfind as (Hi & -> & Hlow).
  exists i. split; [done|]. intros i' Hlt Hi'. by eapply Hlow.
Qed.

Lemma rbac_get_perm_by_id_insert id perms j p perm r :
  rbac_get_perm_by_id id perms = Some (j, (p, perm)) →
  rbac_get_perm_by_id id (<[j := (p, set_ref perm r)]> perms)
  = Some (j, (p, set_ref perm r)).
Proof.
  unfold rbac_get_perm_by_id. case_decide; [done|]. intros Hp.
  pose proof Hp as (_ & Hid & _)%list_find_Some.
  eapply list_find_insert_same; [exact Hp|done].
Qed.

(** ** The deletion guard *)

Lemma rbac_remove_role_succeeds name st :
  (∃ st', rbac_remove_role name st = Done 0 st') ↔
  (∃ k role, rbac_get_role_by_name name (rbac_roles st) = Some (k, role) ∧
     role_ref role = 1).
Proof.
  unfold rbac_remove_role.
  destruct (rbac_get_role_by_name _ _) as [[k role]|].
  - unfold refcount_read. case_decide; split.
    + by intros [? [=]].
    + intros (? & ? & [= <- <-] & ?). done.
    + intros _. exists k, role. split; [done|lia].
    + eauto.
  - split; [by intros [? [=]] | by intros (? & ? & [=] & _)].
Qed.

Lemma rbac_remove_permission_succeeds id st :
  (∃ st', rbac_remove_permission id st = Done 0 st') ↔
  (∃ j p perm,
     rbac_get_perm_by_id id (rbac_perms st) = Some (j, (p, perm)) ∧
     perm_ref perm = 1).
Proof.
  unfold rbac_remove_permission.
  destruct (rbac_get_perm_by_id _ _) as [[j [p perm]]|].
  - unfold refcount_read. case_decide; split.
    + by intros [? [=]].
    + intros (? & ? & ? & [= <- <- <-] & ?). done.
    + intros _. exists j, p, perm. split; [done|lia].
    + eauto.
  - split; [by intros [? [=]] | by intros (? & ? & ? & [=] & _)].
Qed.

(** The lookup of an id finds a permission unless the id is negative or
    no permission of the store has it. *)
Lemma rbac_get_perm_by_id_present id perms :
  0 ≤ id →
  is_Some (rbac_get_perm_by_id id perms) ↔ ∃ e, e ∈ perms ∧ perm_id e.2 = id.
Proof.
  intros Hid. unfold rbac_get_perm_by_id. rewrite decide_False by lia. split.
  - intros [[j e] (Hj & He & _)%list_find_Some].
    exists e. split; [|done]. eapply list_elem_of_lookup_2, Hj.
  - intros (e & He & Heq). by eapply list_find_elem_of.
Qed.

(** ** Unbind addresses a slot *)

(** What rbac_unbind_permission does in a well-formed store once the
    role is found: the slot exists and points, if at all, to a live
    permission. *)
Lemma rbac_unbind_permission_found st rid name k role :
  wf_state st → 0 ≤ rid < Z.of_nat ROLE_MAX_PERMS →
  rbac_get_role_by_name name (rbac_roles st) = Some (k, role) →
  ∃ slot, role_perms role !! Z.to_nat rid = Some slot ∧
    match slot with
    | None => rbac_unbind_permission rid name st = Done (- EINVAL) st
    | Some p =>
        ∃ j perm,
          perm_at p (rbac_perms st) = Some (j, (p, perm)) ∧
          rbac_unbind_permission rid name st =
            Done 0
              {| next_perm_id := next_perm_id st;
                 rbac_roles :=
                   <[k := set_perms role
                            (<[Z.to_nat rid := None]> (role_perms role))]>
                     (rbac_roles st);
                 rbac_perms :=
                   <[j := (p, set_ref perm (perm_ref perm - 1))]>
                     (rbac_perms st) |}
    end.
Proof.
  intros Hwf Hrid Hrole.
  pose proof Hrole as (Hk%list_elem_of_lookup_2 & _ & _)%list_find_Some.
  pose proof (wf_slots _ Hwf role Hk) as Hlen.
  destruct (lookup_lt_is_Some_2 (role_perms role) (Z.to_nat rid))
    as [slot Hslot]; [lia|].
  exists slot. split; [done|].
  unfold rbac_unbind_permission. rewrite Hrole.
  unfold slot_read. rewrite decide_True by done. rewrite Hslot.
  destruct slot as [p|]; [|done].
  destruct (perm_at_live p (rbac_perms st)) as [[j [q perm]] Hat].
  { eapply (wf_live _ Hwf role); [done|].
    eapply list_elem_of_lookup_2, Hslot. }
  pose proof Hat as [_ Hq]%perm_at_Some. simpl in Hq. subst q.
  exists j, perm. by rewrite Hat.
Qed.

(** C5. For an in-range slot index, rbac_unbind_permission never looks a
    permission up by id: with the role absent it returns -EINVAL; with
    the role present it reads the slot, returns -EINVAL on an empty slot
    and otherwise clears the slot, decrements the count of the
    permission the slot pointed to, and returns 0.  In both error cases
    the store is unchanged, and the return value is the same in any two
    reachable stores with the same roles, whatever permissions exist. *)
Theorem rbac_unbind_by_slot st rid name :
  reachable st →
  0 ≤ rid < Z.of_nat ROLE_MAX_PERMS →
  (rbac_get_role_by_name name (rbac_roles st) = None →
   rbac_unbind_permission rid name st = Done (- EINVAL) st) ∧
  (∀ k role,
     rbac_get_role_by_name name (rbac_roles st) = Some (k, role) →
     ∃ slot, role_perms role !! Z.to_nat rid = Some slot ∧
       match slot with
       | None => rbac_unbind_permission rid name st = Done (- EINVAL) st
       | Some p =>
           ∃ j perm,
             perm_at p (rbac_perms st) = Some (j, (p, perm)) ∧
             rbac_unbind_permission rid name st =
               Done 0
                 {| next_perm_id := next_perm_id st;
                    rbac_roles :=
                      <[k := set_perms role
                               (<[Z.to_nat rid := None]> (role_perms role))]>
                        (rbac_roles st);
                    rbac_perms :=
                      <[j := (p, set_ref perm (perm_ref perm - 1))]>
                        (rbac_perms st) |}
       end) ∧
  (∀ st2, reachable st2 → rbac_roles st2 = rbac_roles st →
     ret_of (rbac_unbind_permission rid name st2) =
     ret_of (rbac_unbind_permission rid name st)).
Proof.
  intros Hwf%reachable_wf Hrid. split_and!.
  - intros Hnone. unfold rbac_unbind_permission. by rewrite Hnone.
  - intros k role. by apply rbac_unbind_permission_found.
  - intros st2 Hwf2%reachable_wf Hroles.
    destruct (rbac_get_role_by_name name (rbac_roles st))
      as [[k role]|] eqn:Hrole.
    + destruct (rbac_unbind_permission_found st rid name k role Hwf Hrid Hrole)
        as (slot & Hslot & H1).
      rewrite <- Hroles in Hrole.
      destruct (rbac_unbind_permission_found st2 rid name k role Hwf2 Hrid
                  Hrole) as (slot2 & Hslot2 & H2).
      simplify_eq. destruct slot as [p|].
      * destruct H1 as (? & ? & _ & ->). by destruct H2 as (? & ? & _ & ->).
      * by rewrite H1, H2.
    + unfold rbac_unbind_permission. by rewrite Hroles, Hrole.
Qed.

(** ** Binding the same permission twice *)

(** Two binds of an id the lookup finds to a role the lookup finds, when
    the role has two empty slots. *)
Lemma rbac_bind_twice_found st id name j p perm k role :
  reachable st →
  rbac_get_perm_by_id id (rbac_perms st) = Some (j, (p, perm)) →
  rbac_get_role_by_name name (rbac_roles st) = Some (k, role) →
  (∃ a b, a ≠ b ∧ role_perms role !! a = Some None ∧
     role_perms role !! b = Some None) →
  ∃ i1 i2 st1 st2,
    rbac_bind_permission id name st = Done 0 st1 ∧
    rbac_bind_permission id name st1 = Done 0 st2 ∧
    i1 ≠ i2 ∧
    first_fit (role_perms role) i1 ∧
    first_fit (<[i1 := Some p]> (role_perms role)) i2 ∧
    rbac_roles st1 =
      <[k := set_perms role (<[i1 := Some p]> (role_perms role))]>
        (rbac_roles st) ∧
    rbac_roles st2 =
      <[k := set_perms role
               (<[i2 := Some p]> (<[i1 := Some p]> (role_perms role)))]>
        (rbac_roles st) ∧
    rbac_perms st1 =
      <[j := (p, set_ref perm (perm_ref perm + 1))]> (rbac_perms st) ∧
    rbac_perms st2 =
      <[j := (p, set_ref perm (perm_ref perm + 2))]> (rbac_perms st).
Proof.
  intros Hwf%reachable_wf Hp Hr (a & b & Hab & Ha & Hb).
  pose proof Hr as (Hk%list_elem_of_lookup_2 & Hname & _)%list_find_Some.
  pose proof (wf_slots _ Hwf role Hk) as Hlen.
  destruct (first_fit_exists _ _ Ha) as [i1 [Hi1 Hlow1]].
  pose proof (lookup_lt_Some _ _ _ Hi1) as Hlt1.
  set (slots1 := <[i1 := Some p]> (role_perms role)).
  assert (∃ c, slots1 !! c = Some None) as [c Hc].
  { destruct (decide (a = i1)) as [->|];
      [exists b|exists a]; unfold slots1;
      by rewrite list_lookup_insert_ne. }
  destruct (first_fit_exists _ _ Hc) as [i2 [Hi2 Hlow2]].
  pose proof (lookup_lt_Some _ _ _ Hi2) as Hlt2.
  unfold slots1 in Hlt2. rewrite length_insert in Hlt2.
  pose proof (rbac_bind_permission_ok id name st j p perm k role i1
                Hp Hr ltac:(lia) Hi1 Hlow1) as Hbind1.
  eexists i1, i2, _, _. split; [exact Hbind1|].
  split.
  { erewrite (rbac_bind_permission_ok _ _ _ _ _ _ _ _ i2).
    - reflexivity.
    - simpl. by apply rbac_get_perm_by_id_insert.
    - simpl. eapply list_find_insert_same; [exact Hr|done].
    - lia.
    - exact Hi2.
    - exact Hlow2. }
  simpl. rewrite !list_insert_insert_eq.
  split_and!; try done.
  - intros ->. unfold slots1 in Hi2.
    rewrite list_lookup_insert_eq in Hi2 by done. done.
  - unfold set_ref. simpl. do 3 f_equal. lia.
Qed.

(** ** A failed bind changes nothing *)

(** C7. rbac_bind_permission always returns; when its return value is
    not 0 the store it leaves is the store it was called on, and it
    returns -EINVAL with the store unchanged when the id is not found,
    when the role is not found, and when no slot of the role is empty. *)
Theorem rbac_bind_permission_atomic id name st :
  (∃ ret st', rbac_bind_permission id name st = Done ret st') ∧
  (∀ ret st',
     rbac_bind_permission id name st = Done ret st' → ret ≠ 0 → st' = st) ∧
  (rbac_get_perm_by_id id (rbac_perms st) = None →
   rbac_bind_permission id name st = Done (- EINVAL) st) ∧
  (rbac_get_role_by_name name (rbac_roles st) = None →
   rbac_bind_permission id name st = Done (- EINVAL) st) ∧
  (∀ k role,
     rbac_get_role_by_name name (rbac_roles st) = Some (k, role) →
     (∀ i, (i < ROLE_MAX_PERMS)%nat → role_perms role !! i ≠ Some None) →
     rbac_bind_permission id name st = Done (- EINVAL) st).
Proof.
  split_and!.
  - apply rbac_bind_permission_total.
  - intros ret st' [(_ & -> & _)|(-> & _)]%rbac_bind_permission_inv; done.
  - intros Hnone. unfold rbac_bind_permission. by rewrite Hnone.
  - intros Hnone. unfold rbac_bind_permission.
    destruct (rbac_get_perm_by_id _ _) as [[j [p perm]]|]; [|done].
    by rewrite Hnone.
  - intros k role Hrole Hfull.
    destruct (rbac_bind_permission_total id name st) as (ret & st' & Hbind).
    rewrite Hbind.
    apply rbac_bind_permission_inv in Hbind
      as [(-> & -> & _)|(_ & j & p & perm & k' & role' & i & _ & ? & ? & ? & _)];
      [done|].
    simplify_eq. by destruct (Hfull i).
Qed.

(** ** Removing a role *)

(** C9. A successful rbac_remove_role unlinks the role the lookup found
    and nothing else: the other roles keep their order and contents, and
    the permission list, with every reference count in it, and the id
    counter are what they were. *)
Theorem rbac_remove_role_frame name st st' :
  rbac_remove_role name st = Done 0 st' →
  ∃ k role,
    rbac_get_role_by_name name (rbac_roles st) = Some (k, role) ∧
    rbac_roles st' = delete k (rbac_roles st) ∧
    rbac_perms st' = rbac_perms st ∧
    next_perm_id st' = next_perm_id st.
Proof.
  unfold rbac_remove_role.
  destruct (rbac_get_role_by_name _ _) as [[k role]|]; [|done].
  case_decide; [done|]. intros [= <-]. by exists k, role.
Qed.

(** ** Permission ids *)

Lemma wrap_int_small z : INT_MIN ≤ z ≤ INT_MAX → wrap_int z = z.
Proof.
  unfold wrap_int, INT_MIN, INT_MAX. intros ?.
  rewrite Z.mod_small; lia.
Qed.

Lemma wrap_int_range z : INT_MIN ≤ wrap_int z ≤ INT_MAX.
Proof.
  unfold wrap_int, INT_MIN, INT_MAX.
  pose proof (Z.mod_pos_bound (z + 2 ^ 31) (2 ^ 32)). lia.
Qed.

Lemma wrap_int_add a b : wrap_int (wrap_int a + b) = wrap_int (a + b).
Proof.
  unfold wrap_int. f_equal.
  replace ((a + 2 ^ 31) mod 2 ^ 32 - 2 ^ 31 + b + 2 ^ 31)
    with ((a + 2 ^ 31) mod 2 ^ 32 + b) by lia.
  rewrite Zplus_mod_idemp_l. f_equal. lia.
Qed.

Lemma wrap_int_inj a b :
  0 ≤ a < 2 ^ 32 → 0 ≤ b < 2 ^ 32 → wrap_int a = wrap_int b → a = b.
Proof.
  unfold wrap_int. intros Ha Hb Heq.
  assert ((a + 2 ^ 31) mod 2 ^ 32 = (b + 2 ^ 31) mod 2 ^ 32) as Hmod by lia.
  clear Heq. revert Hmod.
  destruct (decide (a < 2 ^ 31)), (decide (b < 2 ^ 31)).
  - rewrite !Z.mod_small by lia. lia.
  - rewrite (Z.mod_small (a + 2 ^ 31)) by lia.
    replace (b + 2 ^ 31) with (b - 2 ^ 31 + 1 * 2 ^ 32) by lia.
    rewrite Z.mod_add, Z.mod_small by lia. lia.
  - rewrite (Z.mod_small (b + 2 ^ 31)) by lia.
    replace (a + 2 ^ 31) with (a - 2 ^ 31 + 1 * 2 ^ 32) by lia.
    rewrite Z.mod_add, Z.mod_small by lia. lia.
  - replace (a + 2 ^ 31) with (a - 2 ^ 31 + 1 * 2 ^ 32) by lia.
    replace (b + 2 ^ 31) with (b - 2 ^ 31 + 1 * 2 ^ 32) by lia.
    rewrite !Z.mod_add, !Z.mod_small by lia. lia.
Qed.

(** Only a successful rbac_add_permission moves the id counter, and the
    id it assigns is the value the counter had. *)
Lemma exec_issued o st ret st' :
  exec o st = Done ret st' →
  (issued_id o ret st' = [] ∧ next_perm_id st' = next_perm_id st) ∨
  (issued_id o ret st' = [next_perm_id st] ∧
   next_perm_id st' = wrap_int (next_perm_id st + 1)).
Proof.
  destruct o as [name kz|name|acc o obj [p|]|id|id name|rid name]; simpl.
  - unfold rbac_add_role. repeat case_match; intros; simplify_eq; by left.
  - unfold rbac_remove_role. repeat case_match; intros; simplify_eq; by left.
  - intros [= <- <-]. right. simpl. by rewrite last_snoc.
  - intros [= <- <-]. by left.
  - unfold rbac_remove_permission.
    repeat case_match; intros; simplify_eq; by left.
  - intros [(_ & -> & _)|(_ & ? & ? & ? & ? & ? & ? & _ & _ & _ & _ & _ & ->)]
      %rbac_bind_permission_inv; by left.
  - intros [(_ & -> & _)|(_ & ? & ? & ? & ? & ? & _ & _ & _ & ->)]
      %rbac_unbind_permission_inv; by left.
Qed.

Lemma issued_ids_lookup ops st i a :
  INT_MIN ≤ next_perm_id st ≤ INT_MAX →
  issued_ids ops st !! i = Some a →
  a = wrap_int (next_perm_id st + Z.of_nat i).
Proof.
  revert st i. induction ops as [|o ops IH]; simpl; intros st i Hrange; [done|].
  destruct (kzalloc_fresh o st); [|done].
  destruct (exec o st) as [ret st'|] eqn:Hexec; [|done].
  apply exec_issued in Hexec as [[-> Hnext]|[-> Hnext]]; simpl.
  - rewrite <- Hnext. apply IH. by rewrite Hnext.
  - destruct i as [|i]; simpl.
    + intros [= <-]. rewrite Z.add_0_r. by rewrite wrap_int_small.
    + intros Hi. apply IH in Hi; [|rewrite Hnext; apply wrap_int_range].
      rewrite Hi, Hnext, wrap_int_add. f_equal. lia.
Qed.

Lemma churn_issued n k ops :
  Z.of_nat (k + n) ≤ 2 ^ 31 →
  issued_ids (churn k n ++ ops) (idle (wrap_int (Z.of_nat k))) =
    (Z.of_nat <$> seq k n)
    ++ issued_ids ops (idle (wrap_int (Z.of_nat (k + n)))).
Proof.
  revert k. induction n as [|n IH]; intros k Hk.
  - by rewrite Nat.add_0_r.
  - assert (wrap_int (Z.of_nat k) = Z.of_nat k) as Hsmall.
    { apply wrap_int_small. unfold INT_MIN, INT_MAX. lia. }
    change (churn k (S n) ++ ops) with
      (AddPermission ACC_ACCEPT OP_READ None (Some 1%positive)
       :: RemovePermission (Z.of_nat k) :: (churn (S k) n ++ ops)).
    rewrite Hsmall. cbn [issued_ids kzalloc_fresh exec idle rbac_perms fmap
      list_fmap rbac_add_permission issued_id].
    rewrite bool_decide_eq_true_2 by (intros H; inversion H).
    cbn [app next_perm_id rbac_roles rbac_perms last snd perm_id].
    rewrite decide_True by done.
    unfold rbac_remove_permission, rbac_get_perm_by_id.
    cbn [rbac_perms]. rewrite decide_False by lia.
    cbn [list_find]. rewrite decide_True by done.
    cbn [fmap option_fmap option_map refcount_read refcount_set perm_ref
      issued_id app delete list_delete next_perm_id rbac_roles].
    rewrite decide_False by (intros H; by apply H).
    change (next_perm_id (idle (Z.of_nat k))) with (Z.of_nat k).
    change (rbac_roles (idle (Z.of_nat k))) with (@nil rbac_role).
    replace (wrap_int (Z.of_nat k + 1)) with (wrap_int (Z.of_nat (S k)))
      by (f_equal; lia).
    fold (idle (wrap_int (Z.of_nat (S k)))).
    rewrite IH by lia. cbn [seq fmap list_fmap app].
    by replace (S k + n)%nat with (k + S n)%nat by lia.
Qed.

Lemma issued_ids_add_idle c :
  issued_ids [AddPermission ACC_ACCEPT OP_READ None (Some 1%positive)] (idle c)
  = [c].
Proof.
  cbn [issued_ids kzalloc_fresh exec idle rbac_perms fmap list_fmap
    rbac_add_permission issued_id].
  rewrite bool_decide_eq_true_2 by (intros H; inversion H).
  cbn [app next_perm_id rbac_roles rbac_perms last snd perm_id].
  by rewrite decide_True.
Qed.

Lemma wrap_ops_issued :
  issued_ids wrap_ops rbac_init =
    (Z.of_nat <$> seq 0 (Z.to_nat (2 ^ 31))) ++ [INT_MIN].
Proof.
  unfold wrap_ops. change rbac_init with (idle (wrap_int (Z.of_nat 0))).
  assert (Z.of_nat (Z.to_nat (2 ^ 31)) = 2 ^ 31) as HN
    by (apply Z2Nat.id; lia).
  revert HN. generalize (Z.to_nat (2 ^ 31)). intros N HN.
  rewrite churn_issued by lia. rewrite issued_ids_add_idle.
  rewrite Nat.add_0_l, HN. done.
Qed.

(** The id counter wraps: the run [wrap_ops] is given a smaller id for
    its last permission than for its first. *)
Lemma rbac_perm_ids_wrap :
  ¬ ∀ ops, strictly_increasing (issued_ids ops rbac_init).
Proof.
  intros Hinc.
  assert (Z.of_nat (Z.to_nat (2 ^ 31)) = 2 ^ 31) as HN
    by (apply Z2Nat.id; lia).
  specialize (Hinc wrap_ops 0%nat (Z.to_nat (2 ^ 31)) 0 INT_MIN).
  rewrite wrap_ops_issued in Hinc.
  revert HN Hinc. generalize (Z.to_nat (2 ^ 31)). intros N HN Hinc.
  assert (0 < INT_MIN); [|done].
  apply Hinc.
  - lia.
  - rewrite lookup_app_l by (rewrite length_fmap, length_seq; lia).
    rewrite list_lookup_fmap, lookup_seq_lt by lia. done.
  - rewrite lookup_app_r by (rewrite length_fmap, length_seq; lia).
    rewrite length_fmap, length_seq, Nat.sub_diag. done.
Qed.

(** C8, as amended. Along every run from the empty stores, no id is
    assigned twice as long as at most 2^32 calls of rbac_add_permission
    have succeeded, and as long as at most 2^31 have, the ids assigned
    are 0, 1, 2, ... in call order, strictly increasing, whatever was
    removed in between. *)
Theorem rbac_perm_ids_increasing ops :
  Z.of_nat (length (issued_ids ops rbac_init)) ≤ 2 ^ 32 →
  NoDup (issued_ids ops rbac_init) ∧
  (Z.of_nat (length (issued_ids ops rbac_init)) ≤ 2 ^ 31 →
   strictly_increasing (issued_ids ops rbac_init) ∧
   ∀ i a, issued_ids ops rbac_init !! i = Some a → a = Z.of_nat i).
Proof.
  intros Hlen.
  assert (∀ i a, issued_ids ops rbac_init !! i = Some a →
            a = wrap_int (Z.of_nat i) ∧ Z.of_nat i < 2 ^ 32) as Hnth.
  { intros i a Hi. pose proof (lookup_lt_Some _ _ _ Hi).
    apply issued_ids_lookup in Hi; [|by unfold INT_MIN, INT_MAX; simpl; lia].
    simpl in Hi. split; [done|lia]. }
  split.
  - apply NoDup_alt. intros i j a [-> ?]%Hnth [Hj ?]%Hnth.
    apply wrap_int_inj in Hj; lia.
  - intros Hlen'.
    assert (∀ i a, issued_ids ops rbac_init !! i = Some a → a = Z.of_nat i)
      as Hsmall.
    { intros i a Hi. pose proof (lookup_lt_Some _ _ _ Hi).
      apply Hnth in Hi as [-> _]. apply wrap_int_small.
      unfold INT_MIN, INT_MAX. lia. }
    split; [|done]. intros i j a b Hij ->%Hsmall ->%Hsmall. lia.
Qed.

(** ** Defects *)

(** C1 fails on the code. After the run [leak_ops] the role store is
    empty and the permission's count is 2: removing a role frees its
    slot table without giving the references back, so the count no
    longer is one plus the number of slots that hold the permission. *)
Theorem rbac_remove_role_leaks :
  (0 < ROLE_MAX_PERMS)%nat → (7 < ROLE_NAME_LEN)%nat →
  ∃ st perm,
    run leak_ops rbac_init = Some st ∧
    rbac_roles st = [] ∧
    rbac_perms st = [(1%positive, perm)] ∧
    perm_ref perm = 2 ∧
    role_refs 1%positive (rbac_roles st) = 0 ∧
    ¬ refcount_accounting st.
Proof.
  intros Hmax Hlen. destruct ROLE_MAX_PERMS as [|m] eqn:HM; [lia|].
  eexists _, _. split.
  - unfold leak_ops. cbn [run kzalloc_fresh exec].
    rewrite bool_decide_eq_true_2 by (intros H; inversion H).
    cbn [rbac_add_permission rbac_init next_perm_id rbac_roles rbac_perms app].
    unfold rbac_add_role. cbn [rbac_roles rbac_get_role_by_name list_find].
    rewrite decide_True by (simpl; lia).
    unfold rbac_bind_permission, rbac_get_perm_by_id.
    cbn. rewrite HM. cbn. reflexivity.
  - cbn. split_and!; try reflexivity.
    intros Hacc. specialize (Hacc 1%positive _ (list_elem_of_here _ _)).
    simpl in Hacc. done.
Qed.

Lemma append_assoc (a b c : string) : (a +:+ b) +:+ c = a +:+ (b +:+ c).
Proof.
  induction a as [|x a IH]; [done|].
  change (String x ((a +:+ b) +:+ c) = String x (a +:+ b +:+ c)).
  by rewrite IH.
Qed.

(** The listing loop has no [break]: it always runs to the end. *)
Lemma roles_info_loop_index perms i n buf :
  (roles_info_loop perms i n buf).1 = (i + n)%nat.
Proof.
  revert i buf. induction n as [|n IH]; intros i buf; simpl; [lia|].
  rewrite IH. lia.
Qed.

Lemma roles_info_loop_empty perms i n buf :
  (∀ j, (i ≤ j < i + n)%nat → perms !! j = Some None) →
  (roles_info_loop perms i n buf).2 = buf.
Proof.
  revert i. induction n as [|n IH]; intros i Hnone; simpl; [done|].
  rewrite (Hnone i) by lia. apply IH. intros j ?. apply Hnone. lia.
Qed.

(** The text rbac_get_roles_info writes for one role with no slot
    occupied. *)
Lemma role_info_unbound role buf :
  role_perms role = replicate ROLE_MAX_PERMS None →
  role_info role buf =
    buf +:+ role_name role +:+ " with no permission bind" +:+ LF.
Proof.
  intros Hperms. unfold role_info.
  destruct (roles_info_loop _ _ _ _) as [i out] eqn:Hloop.
  pose proof (roles_info_loop_index (role_perms role) 0 ROLE_MAX_PERMS
                (buf +:+ role_name role)) as Hi.
  pose proof (roles_info_loop_empty (role_perms role) 0 ROLE_MAX_PERMS
                (buf +:+ role_name role)) as Hout.
  rewrite Hloop in Hi, Hout. simpl in Hi, Hout. subst i.
  rewrite decide_True by done. rewrite Hout.
  - by rewrite !append_assoc.
  - intros j ?. rewrite Hperms. apply lookup_replicate_2. lia.
Qed.

Lemma role_info_slot0 role p buf :
  (0 < ROLE_MAX_PERMS)%nat →
  role_perms role = Some p :: replicate (ROLE_MAX_PERMS - 1) None →
  role_info role buf =
    buf +:+ role_name role +:+ LF +:+ TAB
    +:+ "perm[0] with no permission bind" +:+ LF.
Proof.
  intros Hmax Hperms. unfold role_info.
  destruct ROLE_MAX_PERMS as [|m] eqn:HM; [lia|].
  cbn [roles_info_loop]. rewrite Hperms. cbn [lookup list_lookup].
  destruct (roles_info_loop _ _ _ _) as [i out] eqn:Hloop.
  pose proof (roles_info_loop_index (Some p :: replicate (S m - 1) None) 1 m
    (((buf +:+ role_name role) +:+
      LF +:+ TAB +:+ "perm[" +:+ fmt_d (Z.of_nat 0) +:+ "]"))) as Hi.
  pose proof (roles_info_loop_empty (Some p :: replicate (S m - 1) None) 1 m
    (((buf +:+ role_name role) +:+
      LF +:+ TAB +:+ "perm[" +:+ fmt_d (Z.of_nat 0) +:+ "]"))) as Hout.
  rewrite Hloop in Hi, Hout. simpl in Hi, Hout. subst i.
  rewrite decide_True by done. rewrite Hout.
  - rewrite !append_assoc. reflexivity.
  - intros [|j] ?; [lia|]. simpl. rewrite Nat.sub_0_r.
    apply lookup_replicate_2. lia.
Qed.

(** C3 fails on the code. For a store whose one role has slot 0
    occupied and no other slot, rbac_get_roles_info writes the name, the
    line of slot 0 and then, on that same line, the text meant for a
    role without bindings: the test after the loop compares the loop
    variable with ROLE_MAX_PERMS, which it always equals. *)
Theorem rbac_get_roles_info_slot0 st role p :
  (0 < ROLE_MAX_PERMS)%nat →
  rbac_roles st = [role] →
  role_perms role = Some p :: replicate (ROLE_MAX_PERMS - 1) None →
  rbac_get_roles_info st =
    (0, role_name role +:+ LF +:+ TAB
        +:+ "perm[0] with no permission bind" +:+ LF).
Proof.
  intros Hmax Hroles Hperms. unfold rbac_get_roles_info.
  rewrite Hroles. cbn [foldl]. by rewrite (role_info_slot0 role p).
Qed.

(** C4 fails on the code. For a name that does not fit name[] and is
    not in the store, rbac_add_role does not return -EINVAL: when the
    allocation succeeds, strcpy writes past the end of the array, and
    when it fails the return value is -ENOMEM. *)
Theorem rbac_add_role_overlong name kzalloc st :
  (ROLE_NAME_LEN ≤ String.length name)%nat →
  rbac_get_role_by_name name (rbac_roles st) = None →
  rbac_add_role name kzalloc st =
    if kzalloc then Undefined BufferOverflow else Done (- ENOMEM) st.
Proof.
  intros Hlen Hnone. unfold rbac_add_role. rewrite Hnone.
  destruct kzalloc; [|done]. rewrite decide_False by lia. done.
Qed.

(** C10 fails on the code. For an existing role and a slot argument
    below 0 or not below ROLE_MAX_PERMS, rbac_unbind_permission reads
    perms[rid] outside the array. *)
Theorem rbac_unbind_permission_out_of_range rid name st k role :
  rbac_get_role_by_name name (rbac_roles st) = Some (k, role) →
  rid < 0 ∨ Z.of_nat ROLE_MAX_PERMS ≤ rid →
  rbac_unbind_permission rid name st = Undefined OutOfBounds.
Proof.
  intros Hrole Hrid. unfold rbac_unbind_permission, slot_read.
  rewrite Hrole. rewrite decide_False by lia. done.
Qed.

(** ** Role names *)

(** What a call does to the list of roles: it is left alone, or one
    slot table changes, or one role is unlinked, or a role with a new
    name, empty slots and count 1 is put at the tail. *)
Lemma exec_roles o st ret st' :
  exec o st = Done ret st' →
  rbac_roles st' = rbac_roles st ∨
  (∃ k role slots, rbac_roles st !! k = Some role ∧
     rbac_roles st' = <[k := set_perms role slots]> (rbac_roles st)) ∨
  (∃ k, rbac_roles st' = delete k (rbac_roles st)) ∨
  (∃ name, ¬ (name ∈ role_names st) ∧
     rbac_roles st' =
       rbac_roles st ++ [ {| role_name := name;
                             role_perms := replicate ROLE_MAX_PERMS None;
                             role_ref := 1 |} ]).
Proof.
  destruct o as [name kz|name|acc o obj [p|]|id|id name|rid name]; simpl.
  - unfold rbac_add_role.
    destruct (rbac_get_role_by_name _ _) eqn:Hfind; [intros [= _ <-]; by left|].
    destruct kz; [|intros [= _ <-]; by left].
    case_decide; [|done]. intros [= _ <-]. right; right; right.
    exists name. split; [|done].
    apply list_find_None in Hfind. rewrite Forall_forall in Hfind.
    unfold role_names. intros (role & Heq & Hin)%list_elem_of_fmap.
    by apply (Hfind role).
  - unfold rbac_remove_role.
    destruct (rbac_get_role_by_name _ _) as [[k role]|];
      [|intros [= _ <-]; by left].
    case_decide; intros [= _ <-]; [by left|]. right; right; left. by exists k.
  - intros [= _ <-]. by left.
  - intros [= _ <-]. by left.
  - unfold rbac_remove_permission. repeat case_match; intros [= _ <-]; by left.
  - intros [(_ & -> & _)
           |(_ & j & p & perm & k & role & i & _ & Hr & _ & _ & _ & ->)]
      %rbac_bind_permission_inv; [by left|].
    apply list_find_Some in Hr as (Hk & _). right; left. eauto.
  - intros [(_ & -> & _)|(_ & k & role & p & j & perm & Hr & _ & _ & ->)]
      %rbac_unbind_permission_inv; [by left|].
    apply list_find_Some in Hr as (Hk & _). right; left. eauto.
Qed.

Lemma exec_role_names o st ret st' :
  NoDup (role_names st) ∧ Forall (λ role, role_ref role = 1) (rbac_roles st) →
  exec o st = Done ret st' →
  NoDup (role_names st') ∧ Forall (λ role, role_ref role = 1) (rbac_roles st').
Proof.
  intros [Hnd Hone] Hexec. unfold role_names in *.
  apply exec_roles in Hexec
    as [->|[(k & role & slots & Hk & ->)|[[k ->]|(name & Hnew & ->)]]].
  - done.
  - split.
    + rewrite list_fmap_insert. simpl.
      rewrite list_insert_id; [done|]. by rewrite list_lookup_fmap, Hk.
    + apply Forall_insert; [done|]. simpl.
      by apply (Forall_lookup_1 _ _ _ _ Hone Hk).
  - split.
    + eapply sublist_NoDup; [done|]. apply fmap_sublist, sublist_delete.
    + by apply Forall_delete.
  - split.
    + rewrite fmap_app. apply NoDup_app. split_and!; [done| |].
      * intros x Hx ->%list_elem_of_singleton. done.
      * apply NoDup_singleton.
    + apply Forall_app. split; [done|]. by apply Forall_singleton.
Qed.

Lemma run_role_names ops st st' :
  NoDup (role_names st) ∧ Forall (λ role, role_ref role = 1) (rbac_roles st) →
  run ops st = Some st' →
  NoDup (role_names st') ∧ Forall (λ role, role_ref role = 1) (rbac_roles st').
Proof.
  revert st. induction ops as [|o ops IH]; simpl; intros st Hinv.
  - by intros [= <-].
  - destruct (kzalloc_fresh o st); [|done].
    destruct (exec o st) as [ret st1|] eqn:Hexec; [|done].
    apply IH. eapply exec_role_names; eauto.
Qed.

Lemma reachable_role_names st :
  reachable st →
  NoDup (role_names st) ∧ Forall (λ role, role_ref role = 1) (rbac_roles st).
Proof.
  intros [ops Hrun]. eapply run_role_names, Hrun.
  split; [apply NoDup_nil_2 | apply Forall_nil_2].
Qed.

Lemma elem_of_delete_lookup {A} (l : list A) k x :
  x ∈ delete k l ↔ ∃ k', k' ≠ k ∧ l !! k' = Some x.
Proof.
  split.
  - intros [i Hi]%list_elem_of_lookup_1. destruct (decide (i < k)%nat).
    + rewrite list_lookup_delete_lt in Hi by done. exists i. split; [lia|done].
    + rewrite list_lookup_delete_ge in Hi by lia. exists (S i).
      split; [lia|done].
  - intros (k' & Hne & Hk'). destruct (decide (k' < k)%nat).
    + apply (list_elem_of_lookup_2 _ k'). by rewrite list_lookup_delete_lt.
    + apply (list_elem_of_lookup_2 _ (k' - 1)%nat).
      rewrite list_lookup_delete_ge by lia.
      by replace (S (k' - 1)) with k' by lia.
Qed.

Lemma role_names_inj st k k' role role' :
  NoDup (role_names st) →
  rbac_roles st !! k = Some role → rbac_roles st !! k' = Some role' →
  role_name role = role_name role' → k = k'.
Proof.
  intros Hnd Hk Hk' Heq.
  eapply (NoDup_lookup _ _ _ (role_name role) Hnd); unfold role_names;
    rewrite list_lookup_fmap; [by rewrite Hk | by rewrite Hk', Heq].
Qed.

(** X1. In every reachable store the role names are pairwise distinct, and
    the lookup by name of a role of the store returns that very role. *)
Theorem rbac_role_names_unique st :
  reachable st →
  NoDup (role_names st) ∧
  ∀ role, role ∈ rbac_roles st →
    ∃ k, rbac_get_role_by_name (role_name role) (rbac_roles st)
         = Some (k, role).
Proof.
  intros [Hnd _]%reachable_role_names. split; [done|].
  intros role [k Hk]%list_elem_of_lookup_1. exists k.
  apply list_find_Some. split_and!; [done..|].
  intros k' role' Hk' Hlt Heq.
  pose proof (role_names_inj st k k' role role' Hnd Hk Hk'
                ltac:(by symmetry)). lia.
Qed.

(** X2. In every reachable store the count of a role is 1, so removing a
    role of the store by its name always returns 0, however many of its
    slots are occupied; afterwards the name is not found any more and
    the roles left are those with another name. *)
Theorem rbac_remove_role_present st role :
  reachable st → role ∈ rbac_roles st →
  ∃ st', rbac_remove_role (role_name role) st = Done 0 st' ∧
    rbac_get_role_by_name (role_name role) (rbac_roles st') = None ∧
    ∀ r, r ∈ rbac_roles st' ↔
         r ∈ rbac_roles st ∧ role_name r ≠ role_name role.
Proof.
  intros [Hnd Hone]%reachable_role_names [k Hk]%list_elem_of_lookup_1.
  assert (rbac_get_role_by_name (role_name role) (rbac_roles st)
          = Some (k, role)) as Hfind.
  { apply list_find_Some. split_and!; [done..|].
    intros k' role' Hk' Hlt Heq.
    pose proof (role_names_inj st k k' role role' Hnd Hk Hk'
                  ltac:(by symmetry)). lia. }
  assert (∀ r, r ∈ delete k (rbac_roles st) ↔
               r ∈ rbac_roles st ∧ role_name r ≠ role_name role) as Hleft.
  { intros r. rewrite elem_of_delete_lookup. split.
    - intros (k' & Hne & Hk'). split; [by eapply list_elem_of_lookup_2|].
      intros Heq. apply Hne. symmetry.
      by apply (role_names_inj st k k' role r Hnd Hk Hk').
    - intros [[k' Hk']%list_elem_of_lookup_1 Hne]. exists k'.
      split; [|done]. intros ->. rewrite Hk in Hk'. by injection Hk' as ->. }
  eexists. unfold rbac_remove_role. rewrite Hfind.
  pose proof (Forall_lookup_1 _ _ _ _ Hone Hk) as Href.
  unfold refcount_read. rewrite decide_False by (simpl in Href; lia).
  split; [done|]. simpl. split; [|done].
  apply list_find_None, Forall_forall. intros r Hr. by apply Hleft in Hr as [_ ?].
Qed.

(** ** Slots point to live permissions *)

(** X3. In every reachable store each slot table has ROLE_MAX_PERMS entries
    and each occupied slot holds the address of a permission that is in
    the store, so rbac_unbind_permission called with an in-range slot
    index never follows a pointer to a freed permission. *)
Theorem rbac_slots_live st :
  reachable st →
  (∀ role, role ∈ rbac_roles st →
     length (role_perms role) = ROLE_MAX_PERMS ∧
     ∀ p, Some p ∈ role_perms role → ∃ perm, (p, perm) ∈ rbac_perms st) ∧
  (∀ rid name, 0 ≤ rid < Z.of_nat ROLE_MAX_PERMS →
     ∃ ret st', rbac_unbind_permission rid name st = Done ret st').
Proof.
  intros Hwf%reachable_wf. split.
  - intros role Hrole. split; [by apply (wf_slots _ Hwf)|].
    intros p Hp. pose proof (wf_live _ Hwf role p Hrole Hp) as Hlive.
    apply list_elem_of_fmap in Hlive as [[q perm] [-> Hin]]. eauto.
  - intros rid name Hrid.
    destruct (rbac_get_role_by_name name (rbac_roles st))
      as [[k role]|] eqn:Hrole.
    + destruct (rbac_unbind_permission_found st rid name k role Hwf Hrid Hrole)
        as (slot & _ & Hslot).
      destruct slot as [p|]; [|eauto].
      destruct Hslot as (j & perm & _ & ->). eauto.
    + unfold rbac_unbind_permission. rewrite Hrole. eauto.
Qed.

(** X4. In every reachable store, a permission that some slot of some role
    holds cannot be removed: rbac_remove_permission returns -EINVAL and
    changes nothing. *)
Theorem rbac_remove_permission_bound st id j p perm role :
  reachable st →
  rbac_get_perm_by_id id (rbac_perms st) = Some (j, (p, perm)) →
  role ∈ rbac_roles st → Some p ∈ role_perms role →
  rbac_remove_permission id st = Done (- EINVAL) st.
Proof.
  intros Hwf%reachable_wf Hperm Hrole Hp.
  pose proof Hperm as (_ & Hj%list_elem_of_lookup_2 & _)
    %rbac_get_perm_by_id_Some.
  pose proof (wf_refs _ Hwf p perm Hj) as Href.
  pose proof (role_refs_nonneg p (rbac_roles st)).
  assert (role_refs p (rbac_roles st) ≠ 0) as Hne.
  { intros Hzero. by apply (proj1 (role_refs_zero p _) Hzero role Hrole). }
  unfold rbac_remove_permission. rewrite Hperm.
  unfold refcount_read. rewrite decide_True by lia. done.
Qed.

(** ** What a call does to the counts *)

Lemma elem_of_perms_insert (perms : list (ptr * rbac_permission)) j e e' x :
  perms !! j = Some e →
  x ∈ <[j := e']> perms ↔ x = e' ∨ ∃ j', j' ≠ j ∧ perms !! j' = Some x.
Proof.
  intros Hj. pose proof (lookup_lt_Some _ _ _ Hj). split.
  - intros [j' Hj']%list_elem_of_lookup_1.
    apply list_lookup_insert_Some in Hj' as [(_ & -> & _)|[? ?]]; eauto.
  - intros [->|(j' & Hne & Hj')].
    + by apply list_elem_of_insert.
    + apply (list_elem_of_lookup_2 _ j').
      by rewrite list_lookup_insert_ne.
Qed.

(** Writing a slot table and a count together, as bind and unbind do,
    with the count following the slots: no permission's surplus moves. *)
Lemma rebind_surplus st k role slots j p perm r :
  wf_state st →
  rbac_roles st !! k = Some role →
  rbac_perms st !! j = Some (p, perm) →
  (∀ q, slot_refs q slots - slot_refs q (role_perms role)
        = if decide (q = p) then r - perm_ref perm else 0) →
  let st' := {| next_perm_id := next_perm_id st;
                rbac_roles := <[k := set_perms role slots]> (rbac_roles st);
                rbac_perms := <[j := (p, set_ref perm r)]> (rbac_perms st) |} in
  (∀ q pm', (q, pm') ∈ rbac_perms st' →
     ∃ pm, (q, pm) ∈ rbac_perms st ∧ perm_id pm' = perm_id pm ∧
       surplus st' q pm' = surplus st q pm) ∧
  (∀ q pm, (q, pm) ∈ rbac_perms st →
     ∃ pm', (q, pm') ∈ rbac_perms st' ∧ perm_id pm' = perm_id pm ∧
       surplus st' q pm' = surplus st q pm).
Proof.
  intros Hwf Hk Hj Hdelta st'.
  assert (∀ q pm, surplus st' q pm
            = perm_ref pm - (1 + role_refs q (rbac_roles st)
                + (if decide (q = p) then r - perm_ref perm else 0)))
    as Hsur.
  { intros q pm. unfold surplus, st'. simpl.
    rewrite (role_refs_insert _ _ _ _ _ Hk). simpl.
    specialize (Hdelta q). lia. }
  assert (∀ j' q pm, j' ≠ j → rbac_perms st !! j' = Some (q, pm) → q ≠ p)
    as Hother.
  { intros j' q pm Hne Hj' ->. apply Hne.
    eapply perms_addr_inj; [apply (wf_addr _ Hwf)|done..]. }
  split.
  - intros q pm' Hin. unfold st' in Hin. simpl in Hin.
    apply (elem_of_perms_insert _ _ _ _ _ Hj) in Hin
      as [[= -> ->]|(j' & Hne & Hj')].
    + exists perm. split; [by eapply list_elem_of_lookup_2|]. split; [done|].
      rewrite Hsur, decide_True by done. unfold surplus. simpl. lia.
    + exists pm'. split; [by eapply list_elem_of_lookup_2|]. split; [done|].
      rewrite Hsur, decide_False by eauto. unfold surplus. lia.
  - intros q pm [j' Hj']%list_elem_of_lookup_1.
    destruct (decide (j' = j)) as [->|Hne].
    + rewrite Hj in Hj'. injection Hj' as <- <-.
      exists (set_ref perm r). split.
      { unfold st'. simpl. apply (elem_of_perms_insert _ _ _ _ _ Hj). by left. }
      split; [done|].
      rewrite Hsur, decide_True by done. unfold surplus. simpl. lia.
    + exists pm. split.
      { unfold st'. simpl. apply (elem_of_perms_insert _ _ _ _ _ Hj).
        right. eauto. }
      split; [done|].
      rewrite Hsur, decide_False by eauto. unfold surplus. lia.
Qed.

(** A call that leaves the permission list alone and adds no reference
    from a slot: no surplus shrinks, and none moves when the slots keep
    their references. *)
Lemma frame_surplus (b : bool) st st' :
  rbac_perms st' = rbac_perms st →
  (∀ q, role_refs q (rbac_roles st') ≤ role_refs q (rbac_roles st)) →
  (b = false → ∀ q, role_refs q (rbac_roles st') = role_refs q (rbac_roles st)) →
  (∀ q pm', (q, pm') ∈ rbac_perms st' →
     (∃ pm, (q, pm) ∈ rbac_perms st ∧ perm_id pm' = perm_id pm ∧
        surplus st q pm ≤ surplus st' q pm' ∧
        (b = false → surplus st' q pm' = surplus st q pm)) ∨
     surplus st' q pm' = 0) ∧
  (∀ q pm, (q, pm) ∈ rbac_perms st →
     (∃ pm', (q, pm') ∈ rbac_perms st' ∧ perm_id pm' = perm_id pm ∧
        surplus st q pm ≤ surplus st' q pm') ∨
     (surplus st q pm = 0 ∧ 0 ≤ perm_id pm)).
Proof.
  intros Hperms Hle Heq. rewrite Hperms. unfold surplus.
  split; intros q pm Hin; left; exists pm; specialize (Hle q).
  - split_and!; [done..|lia|]. intros Hb. rewrite (Heq Hb q). done.
  - split_and!; [done..|lia].
Qed.

Lemma exec_surplus o st ret st' :
  wf_state st → kzalloc_fresh o st = true → exec o st = Done ret st' →
  (∀ q pm', (q, pm') ∈ rbac_perms st' →
     (∃ pm, (q, pm) ∈ rbac_perms st ∧ perm_id pm' = perm_id pm ∧
        surplus st q pm ≤ surplus st' q pm' ∧
        (is_remove_role o = false → surplus st' q pm' = surplus st q pm)) ∨
     surplus st' q pm' = 0) ∧
  (∀ q pm, (q, pm) ∈ rbac_perms st →
     (∃ pm', (q, pm') ∈ rbac_perms st' ∧ perm_id pm' = perm_id pm ∧
        surplus st q pm ≤ surplus st' q pm') ∨
     (surplus st q pm = 0 ∧ 0 ≤ perm_id pm)).
Proof.
  intros Hwf Hfresh Hexec.
  assert (∀ st0 : rbac_state,
    (∀ q, role_refs q (rbac_roles st0) ≤ role_refs q (rbac_roles st0)) ∧
    (is_remove_role o = false →
     ∀ q, role_refs q (rbac_roles st0) = role_refs q (rbac_roles st0)))
    as Hrefl by (intros st0; split; intros; lia).
  destruct o as [name kz|name|acc o obj [p|]|id|id name|rid name];
    simpl in Hexec.
  - (* rbac_add_role *)
    apply frame_surplus.
    + revert Hexec. unfold rbac_add_role.
      repeat case_match; intros; by simplify_eq.
    + revert Hexec. unfold rbac_add_role.
      repeat case_match; intros; simplify_eq; try lia. simpl.
      rewrite role_refs_app. simpl. rewrite slot_refs_replicate. lia.
    + intros _ q. revert Hexec. unfold rbac_add_role.
      repeat case_match; intros; simplify_eq; try lia. simpl.
      rewrite role_refs_app. simpl. rewrite slot_refs_replicate. lia.
  - (* rbac_remove_role *)
    apply frame_surplus.
    + revert Hexec. unfold rbac_remove_role.
      repeat case_match; intros; by simplify_eq.
    + intros q. revert Hexec. unfold rbac_remove_role.
      repeat case_match; intros; simplify_eq; try lia. simpl.
      apply role_refs_delete.
    + done.
  - (* rbac_add_permission, allocation succeeds *)
    injection Hexec as <- <-. simpl in Hfresh.
    apply bool_decide_eq_true in Hfresh. unfold surplus. simpl. split.
    + intros q pm' [Hin|[= -> ->]%list_elem_of_singleton]%elem_of_app.
      * left. exists pm'. by split_and!.
      * right. simpl.
        assert (role_refs p (rbac_roles st) = 0) as ->; [|done].
        apply role_refs_zero. intros role Hrole Hp. apply Hfresh.
        by apply (wf_live _ Hwf role).
    + intros q pm Hin. left. exists pm. split_and!; try done.
      apply elem_of_app. by left.
  - (* rbac_add_permission, allocation fails *)
    injection Hexec as <- <-. apply (frame_surplus false); by try apply Hrefl.
  - (* rbac_remove_permission *)
    revert Hexec. unfold rbac_remove_permission.
    destruct (rbac_get_perm_by_id _ _) as [[j [p perm]]|] eqn:Hperm;
      [|intros [= <- <-]; apply (frame_surplus false); by try apply Hrefl].
    case_decide as Hone;
      [intros [= <- <-]; apply (frame_surplus false); by try apply Hrefl|].
    intros [= <- <-]. unfold surplus, refcount_read in *. simpl.
    apply rbac_get_perm_by_id_Some in Hperm as (Hid & Hj & Hpid & _).
    simpl in Hpid. split.
    + intros q pm' Hin%list_elem_of_delete_inv. left. exists pm'.
      by split_and!.
    + intros q pm [j' Hj']%list_elem_of_lookup_1.
      destruct (decide (j' = j)) as [->|Hne].
      * right. rewrite Hj in Hj'. injection Hj' as <- <-.
        pose proof (wf_refs _ Hwf p perm (list_elem_of_lookup_2 _ _ _ Hj)).
        pose proof (role_refs_nonneg p (rbac_roles st)). lia.
      * left. exists pm. split_and!; try done.
        apply elem_of_delete_lookup. eauto.
  - (* rbac_bind_permission *)
    apply rbac_bind_permission_inv in Hexec
      as [(_ & -> & _)
         |(_ & j & p & perm & k & role & i & Hp & Hr & _ & Hi & _ & ->)];
      [apply (frame_surplus false); by try apply Hrefl|].
    apply rbac_get_perm_by_id_Some in Hp as (_ & Hj & _).
    apply list_find_Some in Hr as (Hk & _).
    destruct (rebind_surplus st k role (<[i := Some p]> (role_perms role))
                j p perm (perm_ref perm + 1) Hwf Hk Hj) as [Hback Hfwd].
    { intros q. rewrite (slot_refs_insert _ _ _ _ _ Hi).
      repeat case_decide; simplify_eq; lia. }
    split.
    + intros q pm' (pm & ? & ? & Heq)%Hback. left. exists pm.
      split_and!; try done. lia.
    + intros q pm (pm' & ? & ? & Heq)%Hfwd. left. exists pm'.
      split_and!; try done. lia.
  - (* rbac_unbind_permission *)
    apply rbac_unbind_permission_inv in Hexec
      as [(_ & -> & _)|(_ & k & role & p & j & perm & Hr & Hslot & Hat & ->)];
      [apply (frame_surplus false); by try apply Hrefl|].
    apply perm_at_Some in Hat as [Hj _].
    apply slot_read_Some in Hslot as [_ Hslot].
    apply list_find_Some in Hr as (Hk & _).
    destruct (rebind_surplus st k role
                (<[Z.to_nat rid := None]> (role_perms role))
                j p perm (perm_ref perm - 1) Hwf Hk Hj) as [Hback Hfwd].
    { intros q. rewrite (slot_refs_insert _ _ _ _ _ Hslot).
      repeat case_decide; simplify_eq; lia. }
    split.
    + intros q pm' (pm & ? & ? & Heq)%Hback. left. exists pm.
      split_and!; try done. lia.
    + intros q pm (pm' & ? & ? & Heq)%Hfwd. left. exists pm'.
      split_and!; try done. lia.
Qed.

Lemma run_accounting ops st st' :
  wf_state st → refcount_accounting st →
  Forall (λ o, is_remove_role o = false) ops →
  run ops st = Some st' → refcount_accounting st'.
Proof.
  revert st. induction ops as [|o ops IH]; simpl; intros st Hwf Hacc Hops.
  - by intros [= <-].
  - destruct (kzalloc_fresh o st) eqn:Hfresh; [|done].
    destruct (exec o st) as [ret st1|] eqn:Hexec; [|done].
    apply Forall_cons in Hops as [Ho Hops].
    apply IH; [by eapply exec_wf| |done].
    destruct (exec_surplus o st ret st1 Hwf Hfresh Hexec) as [Hback _].
    intros q pm' Hin.
    destruct (Hback q pm' Hin) as [(pm & Hpm & _ & _ & Heq)|Hzero].
    + specialize (Heq Ho). specialize (Hacc q pm Hpm).
      unfold surplus in Heq. lia.
    + unfold surplus in Hzero. lia.
Qed.

(** X6. Along every run from the empty stores that removes no role, each
    permission's count is exactly one plus the number of slots that hold
    it. *)
Theorem rbac_refcount_exact ops st :
  run ops rbac_init = Some st →
  Forall (λ o, is_remove_role o = false) ops →
  refcount_accounting st.
Proof.
  intros Hrun Hops. eapply run_accounting; [apply wf_init| |done..].
  intros q pm Hin. inversion Hin.
Qed.

Lemma run_persist ops st st' p perm :
  wf_state st → run ops st = Some st' → (p, perm) ∈ rbac_perms st →
  0 < surplus st p perm ∨ perm_id perm < 0 →
  ∃ perm', (p, perm') ∈ rbac_perms st' ∧ perm_id perm' = perm_id perm ∧
    surplus st p perm ≤ surplus st' p perm'.
Proof.
  revert st perm. induction ops as [|o ops IH]; simpl; intros st perm Hwf.
  - intros [= <-] Hin _. exists perm. split_and!; [done..|lia].
  - destruct (kzalloc_fresh o st) eqn:Hfresh; [|done].
    destruct (exec o st) as [ret st1|] eqn:Hexec; [|done].
    intros Hrun Hin Hstuck.
    destruct (exec_surplus o st ret st1 Hwf Hfresh Hexec) as [_ Hfwd].
    destruct (Hfwd p perm Hin) as [(pm1 & Hin1 & Hid1 & Hle1)|[? ?]]; [|lia].
    destruct (IH st1 pm1 (exec_wf _ _ _ _ Hwf Hfresh Hexec) Hrun Hin1)
      as (perm' & Hin' & Hid' & Hle'); [lia|].
    exists perm'. split_and!; [done|congruence|lia].
Qed.

(** X7. A leaked reference is never given back: once a permission's count
    is above one plus the number of slots that hold it, every later
    store still has that permission, with the same id and with a count
    above 1, so no call removes it. *)
Theorem rbac_leak_permanent st p perm ops st' :
  reachable st → (p, perm) ∈ rbac_perms st →
  1 + role_refs p (rbac_roles st) < perm_ref perm →
  run ops st = Some st' →
  ∃ perm', (p, perm') ∈ rbac_perms st' ∧ perm_id perm' = perm_id perm ∧
    1 + role_refs p (rbac_roles st') < perm_ref perm'.
Proof.
  intros Hwf%reachable_wf Hin Hleak Hrun.
  destruct (run_persist ops st st' p perm Hwf Hrun Hin)
    as (perm' & Hin' & Hid' & Hle); [unfold surplus; lia|].
  exists perm'. split_and!; [done..|]. unfold surplus in Hle. lia.
Qed.

(** ** Ids in the store *)

Lemma exec_perm_ids o st ret st' :
  exec o st = Done ret st' →
  (issued_id o ret st' = [] ∧ next_perm_id st' = next_perm_id st ∧
   perm_ids st' `sublist_of` perm_ids st) ∨
  (issued_id o ret st' = [next_perm_id st] ∧
   next_perm_id st' = wrap_int (next_perm_id st + 1) ∧
   perm_ids st' = perm_ids st ++ [next_perm_id st]).
Proof.
  unfold perm_ids.
  destruct o as [name kz|name|acc o obj [p|]|id|id name|rid name]; simpl.
  - unfold rbac_add_role. repeat case_match; intros; simplify_eq; by left.
  - unfold rbac_remove_role. repeat case_match; intros; simplify_eq; by left.
  - intros [= <- <-]. right. simpl. rewrite last_snoc, fmap_app. done.
  - intros [= <- <-]. by left.
  - unfold rbac_remove_permission.
    repeat case_match; intros; simplify_eq; left; split_and!; try done.
    simpl. apply fmap_sublist, sublist_delete.
  - intros [(_ & -> & _)
           |(_ & j & p & perm & k & role & i & Hp & _ & _ & _ & _ & ->)]
      %rbac_bind_permission_inv; left; split_and!; try done.
    apply rbac_get_perm_by_id_Some in Hp as (_ & Hj & _). simpl.
    rewrite list_fmap_insert. simpl. rewrite list_insert_id; [done|].
    by rewrite list_lookup_fmap, Hj.
  - intros [(_ & -> & _)|(_ & k & role & p & j & perm & _ & _ & Hat & ->)]
      %rbac_unbind_permission_inv; left; split_and!; try done.
    apply perm_at_Some in Hat as [Hj _]. simpl.
    rewrite list_fmap_insert. simpl. rewrite list_insert_id; [done|].
    by rewrite list_lookup_fmap, Hj.
Qed.

Lemma run_perm_ids ops st st' :
  0 ≤ next_perm_id st →
  (∀ id, id ∈ perm_ids st → 0 ≤ id < next_perm_id st) →
  NoDup (perm_ids st) →
  run ops st = Some st' →
  next_perm_id st + Z.of_nat (length (issued_ids ops st)) ≤ INT_MAX →
  next_perm_id st' = next_perm_id st + Z.of_nat (length (issued_ids ops st)) ∧
  (∀ id, id ∈ perm_ids st' → 0 ≤ id < next_perm_id st') ∧
  NoDup (perm_ids st').
Proof.
  revert st. induction ops as [|o ops IH]; simpl; intros st Hpos Hbelow Hnd.
  - intros [= <-] _. split_and!; [lia|done..].
  - destruct (kzalloc_fresh o st); [|done].
    destruct (exec o st) as [ret st1|] eqn:Hexec; [|done].
    intros Hrun. rewrite length_app.
    apply exec_perm_ids in Hexec as [(-> & Hnext & Hsub)|(-> & Hnext & Hids)];
      simpl; intros Hlen.
    + destruct (IH st1) as (Hn & Hb & Hd); try done; try lia.
      * intros id Hid. rewrite Hnext. apply Hbelow.
        by eapply sublist_subseteq.
      * by eapply sublist_NoDup.
      * split_and!; [lia|done..].
    + assert (wrap_int (next_perm_id st + 1) = next_perm_id st + 1) as Hsmall.
      { apply wrap_int_small. unfold INT_MIN, INT_MAX in *. lia. }
      rewrite Hsmall in Hnext.
      destruct (IH st1) as (Hn & Hb & Hd); try done; try lia.
      * intros id. rewrite Hids, Hnext, elem_of_app, list_elem_of_singleton.
        intros [Hid%Hbelow| ->]; lia.
      * rewrite Hids. apply NoDup_app. split_and!; [done| |apply NoDup_singleton].
        intros id Hid%Hbelow ->%list_elem_of_singleton. lia.
      * split_and!; [lia|done..].
Qed.

(** X8. Along every run from the empty stores in which fewer than 2^31
    calls of rbac_add_permission succeed, the ids of the permissions in
    the store are pairwise distinct, not negative and below the id
    counter, and the lookup by id of a permission of the store returns
    that very permission. *)
Theorem rbac_perm_ids_unique ops st :
  run ops rbac_init = Some st →
  Z.of_nat (length (issued_ids ops rbac_init)) < 2 ^ 31 →
  NoDup (perm_ids st) ∧
  (∀ id, id ∈ perm_ids st → 0 ≤ id < next_perm_id st) ∧
  next_perm_id st = Z.of_nat (length (issued_ids ops rbac_init)) ∧
  ∀ p perm, (p, perm) ∈ rbac_perms st →
    ∃ j, rbac_get_perm_by_id (perm_id perm) (rbac_perms st)
         = Some (j, (p, perm)).
Proof.
  intros Hrun Hlen.
  destruct (run_perm_ids ops rbac_init st) as (Hnext & Hbelow & Hnd);
    try done.
  { simpl. intros id Hid. inversion Hid. }
  { apply NoDup_nil_2. }
  { simpl. unfold INT_MAX. lia. }
  simpl in Hnext. split_and!; [done..|].
  intros p perm [j Hj]%list_elem_of_lookup_1. exists j.
  assert (0 ≤ perm_id perm) as Hpos.
  { apply Hbelow. unfold perm_ids. apply list_elem_of_fmap.
    exists (p, perm). split; [done|]. by eapply list_elem_of_lookup_2. }
  unfold rbac_get_perm_by_id. rewrite decide_False by lia.
  apply list_find_Some. split_and!; [done..|].
  intros j' [q pm] Hj' Hlt Heq. simpl in Heq.
  assert (j' = j); [|lia].
  eapply (NoDup_lookup _ _ _ (perm_id perm) Hnd); unfold perm_ids;
    rewrite list_lookup_fmap; [by rewrite Hj', <- Heq | by rewrite Hj].
Qed.

(** X9. A permission with a negative id is out of reach of every call that
    takes an id: every later store still has it, and removing or binding
    its id returns -EINVAL and changes nothing. *)
Theorem rbac_negative_id_permanent st p perm ops st' :
  reachable st → (p, perm) ∈ rbac_perms st → perm_id perm < 0 →
  run ops st = Some st' →
  (∃ perm', (p, perm') ∈ rbac_perms st' ∧ perm_id perm' = perm_id perm) ∧
  rbac_remove_permission (perm_id perm) st' = Done (- EINVAL) st' ∧
  ∀ name, rbac_bind_permission (perm_id perm) name st' = Done (- EINVAL) st'.
Proof.
  intros Hwf%reachable_wf Hin Hneg Hrun.
  destruct (run_persist ops st st' p perm Hwf Hrun Hin)
    as (perm' & Hin' & Hid' & _); [by right|].
  split; [eauto|].
  unfold rbac_remove_permission, rbac_bind_permission, rbac_get_perm_by_id.
  rewrite decide_True by done. done.
Qed.

Lemma churn_run n k ops :
  Z.of_nat (k + n) ≤ 2 ^ 31 →
  run (churn k n ++ ops) (idle (wrap_int (Z.of_nat k))) =
    run ops (idle (wrap_int (Z.of_nat (k + n)))).
Proof.
  revert k. induction n as [|n IH]; intros k Hk.
  - by rewrite Nat.add_0_r.
  - assert (wrap_int (Z.of_nat k) = Z.of_nat k) as Hsmall.
    { apply wrap_int_small. unfold INT_MIN, INT_MAX. lia. }
    change (churn k (S n) ++ ops) with
      (AddPermission ACC_ACCEPT OP_READ None (Some 1%positive)
       :: RemovePermission (Z.of_nat k) :: (churn (S k) n ++ ops)).
    rewrite Hsmall. cbn [run kzalloc_fresh exec idle rbac_perms fmap
      list_fmap rbac_add_permission].
    rewrite bool_decide_eq_true_2 by (intros H; inversion H).
    unfold rbac_remove_permission, rbac_get_perm_by_id.
    cbn [app next_perm_id rbac_roles rbac_perms].
    rewrite decide_False by lia.
    cbn [list_find perm_id snd]. rewrite decide_True by done.
    cbn [fmap option_fmap option_map refcount_read refcount_set perm_ref
      delete list_delete].
    rewrite decide_False by (intros H; by apply H).
    change (next_perm_id (idle (Z.of_nat k))) with (Z.of_nat k).
    change (rbac_roles (idle (Z.of_nat k))) with (@nil rbac_role).
    replace (wrap_int (Z.of_nat k + 1)) with (wrap_int (Z.of_nat (S k)))
      by (f_equal; lia).
    fold (idle (wrap_int (Z.of_nat (S k)))).
    rewrite IH by lia.
    by replace (S k + n)%nat with (k + S n)%nat by lia.
Qed.

Lemma wrap_ops_run : run wrap_ops rbac_init = Some wrapped.
Proof.
  unfold wrap_ops. change rbac_init with (idle (wrap_int (Z.of_nat 0))).
  assert (Z.of_nat (Z.to_nat (2 ^ 31)) = 2 ^ 31) as HN
    by (apply Z2Nat.id; lia).
  revert HN. generalize (Z.to_nat (2 ^ 31)). intros N HN.
  rewrite churn_run by lia. rewrite Nat.add_0_l, HN.
  cbn [run kzalloc_fresh exec idle rbac_perms fmap list_fmap
    rbac_add_permission].
  rewrite bool_decide_eq_true_2 by (intros H; inversion H).
  reflexivity.
Qed.

(** ** Capacity of a role *)

Lemma count_empty_zero slots :
  count_empty slots = O → ∀ i, slots !! i ≠ Some None.
Proof.
  induction slots as [|[q|] slots IH]; simpl; intros Hzero [|i]; try done.
  by apply IH.
Qed.

Lemma count_empty_pos slots m :
  count_empty slots = S m → ∃ a, slots !! a = Some None.
Proof.
  induction slots as [|[q|] slots IH]; simpl; [done| |].
  - intros [a Ha]%IH. by exists (S a).
  - intros _. by exists O.
Qed.

Lemma count_empty_insert slots i p :
  slots !! i = Some None →
  S (count_empty (<[i := Some p]> slots)) = count_empty slots.
Proof.
  revert i. induction slots as [|[q|] slots IH]; intros [|i] Hi;
    simplify_eq/=; try done.
  - by apply IH.
  - f_equal. by apply IH.
Qed.

Lemma fill_insert slots i p :
  slots !! i = Some None → fill p (<[i := Some p]> slots) = fill p slots.
Proof.
  intros Hi. unfold fill. rewrite list_fmap_insert.
  apply list_insert_id. by rewrite list_lookup_fmap, Hi.
Qed.

Lemma fill_full slots p :
  count_empty slots = O → fill p slots = slots.
Proof.
  unfold fill. induction slots as [|[q|] slots IH]; intros Hzero;
    simplify_eq/=; [done|].
  f_equal. by apply IH.
Qed.

Lemma fill_occupied slots p i : fill p slots !! i ≠ Some None.
Proof.
  unfold fill. rewrite list_lookup_fmap.
  by destruct (slots !! i) as [[q|]|].
Qed.

Lemma run_binds_fill m id name st j p perm k role :
  wf_state st →
  rbac_get_perm_by_id id (rbac_perms st) = Some (j, (p, perm)) →
  rbac_get_role_by_name name (rbac_roles st) = Some (k, role) →
  count_empty (role_perms role) = m →
  run (replicate m (BindPermission id name)) st =
    Some {| next_perm_id := next_perm_id st;
            rbac_roles :=
              <[k := set_perms role (fill p (role_perms role))]>
                (rbac_roles st);
            rbac_perms :=
              <[j := (p, set_ref perm (perm_ref perm + Z.of_nat m))]>
                (rbac_perms st) |}.
Proof.
  revert st perm role. induction m as [|m IH]; intros st perm role Hwf Hp Hr Hm.
  - pose proof Hp as (_ & Hj & _)%rbac_get_perm_by_id_Some.
    pose proof Hr as (Hk & _)%list_find_Some.
    simpl. rewrite (fill_full _ _ Hm), Z.add_0_r, set_perms_id, set_ref_id.
    rewrite !list_insert_id by done. by destruct st.
  - destruct (count_empty_pos _ _ Hm) as [a Ha].
    destruct (first_fit_exists _ _ Ha) as [i [Hi Hlow]].
    pose proof Hr as (Hk%list_elem_of_lookup_2 & _)%list_find_Some.
    pose proof (wf_slots _ Hwf role Hk) as Hlen.
    pose proof (lookup_lt_Some _ _ _ Hi) as Hlt.
    pose proof (rbac_bind_permission_ok id name st j p perm k role i
                  Hp Hr ltac:(lia) Hi Hlow) as Hbind.
    cbn [replicate run kzalloc_fresh exec]. rewrite Hbind.
    erewrite (IH _ (set_ref perm (perm_ref perm + 1))
                (set_perms role (<[i := Some p]> (role_perms role)))).
    + simpl. rewrite !list_insert_insert_eq, (fill_insert _ _ _ Hi).
      unfold set_perms, set_ref. simpl. do 5 f_equal. lia.
    + eapply rbac_bind_permission_wf; [exact Hwf|exact Hbind].
    + simpl. by apply rbac_get_perm_by_id_insert.
    + simpl. eapply list_find_insert_same; [exact Hr|].
      by apply list_find_Some in Hr as (_ & ? & _).
    + simpl. pose proof (count_empty_insert _ _ p Hi). lia.
Qed.

(** X10. A role takes as many binds as it has empty slots and no more: in a
    reachable store, binding an id the lookup finds to a role as many
    times as the role has empty slots succeeds every time, leaves every
    formerly empty slot pointing to that permission and raises its count
    by that number; after that, binding any id to that role returns
    -EINVAL and changes nothing. *)
Theorem rbac_role_capacity st id name j p perm k role :
  reachable st →
  rbac_get_perm_by_id id (rbac_perms st) = Some (j, (p, perm)) →
  rbac_get_role_by_name name (rbac_roles st) = Some (k, role) →
  ∃ st',
    run (replicate (count_empty (role_perms role)) (BindPermission id name)) st
      = Some st' ∧
    rbac_roles st' =
      <[k := set_perms role (fill p (role_perms role))]> (rbac_roles st) ∧
    rbac_perms st' =
      <[j := (p, set_ref perm
                   (perm_ref perm
                    + Z.of_nat (count_empty (role_perms role))))]>
        (rbac_perms st) ∧
    ∀ id', rbac_bind_permission id' name st' = Done (- EINVAL) st'.
Proof.
  intros Hwf%reachable_wf Hp Hr. eexists.
  split; [by eapply run_binds_fill|]. simpl. split_and!; [done..|].
  intros id'.
  destruct (rbac_bind_permission_total id' name
    {| next_perm_id := next_perm_id st;
       rbac_roles :=
         <[k := set_perms role (fill p (role_perms role))]> (rbac_roles st);
       rbac_perms :=
         <[j := (p, set_ref perm
                      (perm_ref perm
                       + Z.of_nat (count_empty (role_perms role))))]>
           (rbac_perms st) |}) as (ret & st2 & Hbind).
  rewrite Hbind.
  apply rbac_bind_permission_inv in Hbind
    as [(-> & -> & _)
       |(_ & j' & p' & perm' & k' & role' & i & _ & Hr' & _ & Hi & _)];
    [done|].
  simpl in Hr'.
  assert (rbac_get_role_by_name name
            (<[k := set_perms role (fill p (role_perms role))]> (rbac_roles st))
          = Some (k, set_perms role (fill p (role_perms role)))) as Hfilled.
  { eapply list_find_insert_same; [exact Hr|].
    by apply list_find_Some in Hr as (_ & ? & _). }
  rewrite Hfilled in Hr'. injection Hr' as <- <-. simpl in Hi.
  by destruct (fill_occupied (role_perms role) p i).
Qed.

(** ** Adding a role *)

Lemma foldl_snoc {A B} (f : A → B → A) a l x :
  foldl f a (l ++ [x]) = f (foldl f a l) x.
Proof. revert a. induction l as [|y l IH]; intros a; simpl; [done|]. apply IH. Qed.

(** X12. After a successful rbac_add_role the new role is the last of the
    list and is found by its name, with every slot empty and count 1;
    the lookup of every other name gives what it gave before; and the
    listing is the former listing followed by the line of the new role. *)
Theorem rbac_add_role_found name kzalloc st st' :
  rbac_add_role name kzalloc st = Done 0 st' →
  rbac_get_role_by_name name (rbac_roles st') =
    Some (length (rbac_roles st),
          {| role_name := name; role_perms := replicate ROLE_MAX_PERMS None;
             role_ref := 1 |}) ∧
  (∀ name', name' ≠ name →
     rbac_get_role_by_name name' (rbac_roles st') =
     rbac_get_role_by_name name' (rbac_roles st)) ∧
  (rbac_get_roles_info st').2 =
    (rbac_get_roles_info st).2 +:+ name +:+ " with no permission bind" +:+ LF.
Proof.
  unfold rbac_add_role.
  destruct (rbac_get_role_by_name name (rbac_roles st)) eqn:Hnone; [done|].
  destruct kzalloc; [|done]. case_decide; [|done]. intros [= <-]. simpl.
  unfold rbac_get_role_by_name in *. split_and!.
  - rewrite list_find_app_r by done. simpl. rewrite decide_True by done.
    simpl. do 2 f_equal.
  - intros name' Hne.
    destruct (list_find (λ r, role_name r = name') (rbac_roles st))
      as [[k role]|] eqn:Hfind.
    + by apply list_find_app_l.
    + rewrite list_find_app_r by done. simpl.
      rewrite decide_False by (simpl; congruence). done.
  - rewrite foldl_snoc. by rewrite role_info_unbound.
Qed.

(** ** Adding a permission *)

(** X13. After a successful rbac_add_permission in a store whose id counter
    is not negative and is not the id of a permission of the store, the
    new permission is the last of the list, carries the counter's value
    as its id and count 1, and is found by that id; the lookup of every
    other id gives what it gave before; and the listing is the former
    listing followed by the line of the new permission. *)
Theorem rbac_add_permission_found acc o obj kzalloc st st' :
  0 ≤ next_perm_id st → ¬ (next_perm_id st ∈ perm_ids st) →
  rbac_add_permission acc o obj kzalloc st = Done 0 st' →
  ∃ p, kzalloc = Some p ∧
    rbac_get_perm_by_id (next_perm_id st) (rbac_perms st') =
      Some (length (rbac_perms st),
            (p, {| perm_id := next_perm_id st; perm_acc := acc; perm_op := o;
                   perm_obj := obj; perm_ref := 1 |})) ∧
    (∀ id, id ≠ next_perm_id st →
       rbac_get_perm_by_id id (rbac_perms st') =
       rbac_get_perm_by_id id (rbac_perms st)) ∧
    (rbac_get_perms_info st').2 =
      (rbac_get_perms_info st).2
      +:+ "[" +:+ fmt_d (next_perm_id st) +:+ "]: "
      +:+ acceptability_name acc +:+ " " +:+ operation_name o +:+ " on "
      +:+ default "all" obj +:+ LF.
Proof.
  intros Hpos Hnew. unfold rbac_add_permission.
  destruct kzalloc as [p|]; [|done]. intros [= <-]. exists p.
  split; [done|]. simpl.
  assert (list_find (λ e : ptr * rbac_permission, perm_id e.2 = next_perm_id st)
            (rbac_perms st) = None) as Hnone.
  { apply list_find_None, Forall_forall. intros e He Heq. apply Hnew.
    unfold perm_ids. apply list_elem_of_fmap. by exists e. }
  unfold rbac_get_perm_by_id. split_and!.
  - rewrite decide_False by lia. rewrite list_find_app_r by done. simpl.
    rewrite decide_True by done. simpl. do 2 f_equal.
  - intros id Hne. case_decide; [done|].
    destruct (list_find (λ e : ptr * rbac_permission, perm_id e.2 = id)
                (rbac_perms st)) as [[j e]|] eqn:Hfind.
    + by apply list_find_app_l.
    + rewrite list_find_app_r by done. simpl.
      rewrite decide_False by (simpl; congruence). done.
  - by rewrite foldl_snoc.
Qed.

(** ** A freed slot is the next one written *)

Lemma rbac_get_perm_by_id_rebind id perms j p perm j1 q pm r :
  rbac_get_perm_by_id id perms = Some (j, (p, perm)) →
  perms !! j1 = Some (q, pm) →
  ∃ perm', rbac_get_perm_by_id id (<[j1 := (q, set_ref pm r)]> perms)
           = Some (j, (p, perm')).
Proof.
  unfold rbac_get_perm_by_id. case_decide; [done|].
  intros (Hj & Hid & Hlow)%list_find_Some Hj1.
  pose proof (lookup_lt_Some _ _ _ Hj1) as Hlt1.
  destruct (decide (j = j1)) as [->|Hne].
  - rewrite Hj in Hj1. injection Hj1 as <- <-.
    exists (set_ref perm r). apply list_find_Some. split_and!.
    + by apply list_lookup_insert_eq.
    + done.
    + intros j' e' Hj' Hlt. rewrite list_lookup_insert_ne in Hj' by lia. eauto.
  - exists perm. apply list_find_Some. split_and!.
    + by rewrite list_lookup_insert_ne.
    + done.
    + intros j' e' Hj' Hlt.
      apply list_lookup_insert_Some in Hj' as [(-> & <- & _)|[_ Hj']].
      * simpl. by apply (Hlow j' (q, pm)).
      * eauto.
Qed.

(** X11. In a reachable store, when no slot of a role is empty, unbinding an
    in-range slot of the role succeeds, and the next bind of an id the
    lookup finds to that role succeeds and writes that same slot; the
    other slots keep what they held. *)
Theorem rbac_unbind_frees_slot st rid name id k role j p perm :
  reachable st → 0 ≤ rid < Z.of_nat ROLE_MAX_PERMS →
  rbac_get_role_by_name name (rbac_roles st) = Some (k, role) →
  count_empty (role_perms role) = O →
  rbac_get_perm_by_id id (rbac_perms st) = Some (j, (p, perm)) →
  ∃ st1 st2 role2,
    rbac_unbind_permission rid name st = Done 0 st1 ∧
    rbac_bind_permission id name st1 = Done 0 st2 ∧
    rbac_get_role_by_name name (rbac_roles st2) = Some (k, role2) ∧
    role_perms role2 = <[Z.to_nat rid := Some p]> (role_perms role).
Proof.
  intros Hwf%reachable_wf Hrid Hr Hfull Hp.
  pose proof Hr as (_ & Hname & _)%list_find_Some.
  destruct (rbac_unbind_permission_found st rid name k role Hwf Hrid Hr)
    as (slot & Hslot & Hunbind).
  destruct slot as [q|]; [|by destruct (count_empty_zero _ Hfull (Z.to_nat rid))].
  destruct Hunbind as (j1 & pm & Hat & Hunbind).
  apply perm_at_Some in Hat as [Hj1 _].
  destruct (rbac_get_perm_by_id_rebind id _ j p perm j1 q pm (perm_ref pm - 1)
              Hp Hj1) as [perm' Hp1].
  pose proof (lookup_lt_Some _ _ _ Hslot) as Hlt.
  set (slots1 := <[Z.to_nat rid := None]> (role_perms role)) in *.
  eexists _, _, (set_perms (set_perms role slots1)
                   (<[Z.to_nat rid := Some p]> slots1)).
  split; [exact Hunbind|]. split.
  - eapply (rbac_bind_permission_ok _ _ _ j p perm' k
              (set_perms role slots1) (Z.to_nat rid)).
    + exact Hp1.
    + simpl. eapply list_find_insert_same; [exact Hr|done].
    + lia.
    + simpl. unfold slots1. by apply list_lookup_insert_eq.
    + intros i' Hi'. simpl. unfold slots1.
      rewrite list_lookup_insert_ne by lia.
      apply (count_empty_zero _ Hfull).
  - simpl. split.
    + rewrite list_insert_insert_eq.
      eapply list_find_insert_same; [exact Hr|done].
    + unfold slots1. by rewrite list_insert_insert_eq.
Qed.

(** ** Removing a permission *)

(** X14. Along a run from the empty stores in which fewer than 2^31 calls of
    rbac_add_permission succeed, a successful rbac_remove_permission
    takes exactly the permissions with that id out of the store, which
    is one permission: afterwards the id is not found, and the roles and
    the id counter are what they were. *)
Theorem rbac_remove_permission_gone ops st id st' :
  run ops rbac_init = Some st →
  Z.of_nat (length (issued_ids ops rbac_init)) < 2 ^ 31 →
  rbac_remove_permission id st = Done 0 st' →
  rbac_get_perm_by_id id (rbac_perms st') = None ∧
  (∀ e, e ∈ rbac_perms st' ↔ e ∈ rbac_perms st ∧ perm_id e.2 ≠ id) ∧
  length (rbac_perms st) = S (length (rbac_perms st')) ∧
  rbac_roles st' = rbac_roles st ∧ next_perm_id st' = next_perm_id st.
Proof.
  intros Hrun Hlen.
  destruct (run_perm_ids ops rbac_init st) as (_ & _ & Hnd); try done.
  { simpl. intros id' Hid. inversion Hid. }
  { apply NoDup_nil_2. }
  { simpl. unfold INT_MAX. lia. }
  unfold rbac_remove_permission.
  destruct (rbac_get_perm_by_id _ _) as [[j [p perm]]|] eqn:Hperm; [|done].
  case_decide; [done|]. intros [= <-]. simpl.
  apply rbac_get_perm_by_id_Some in Hperm as (Hpos & Hj & Hid & _).
  simpl in Hid.
  assert (∀ e, e ∈ delete j (rbac_perms st) ↔
               e ∈ rbac_perms st ∧ perm_id e.2 ≠ id) as Hleft.
  { intros e. rewrite elem_of_delete_lookup. split.
    - intros (j' & Hne & Hj'). split; [by eapply list_elem_of_lookup_2|].
      intros Heq. apply Hne.
      eapply (NoDup_lookup _ _ _ id Hnd); unfold perm_ids;
        rewrite list_lookup_fmap; [by rewrite Hj', <- Heq | by rewrite Hj, <- Hid].
    - intros [[j' Hj']%list_elem_of_lookup_1 Hne]. exists j'.
      split; [|done]. intros ->. rewrite Hj in Hj'. injection Hj' as <-.
      by apply Hne. }
  split_and!; [|done| |done..].
  - apply rbac_get_perm_by_id_None. right. intros e He.
    by apply Hleft in He as [_ ?].
  - pose proof (lookup_lt_Some _ _ _ Hj). rewrite length_delete; [lia|eauto].
Qed.

(** ** The deletion guard and the double bind, by what is in the store *)

Lemma rbac_get_perm_by_id_first id perms j p perm :
  rbac_get_perm_by_id id perms = Some (j, (p, perm)) ↔
  0 ≤ id ∧ first_with_id id perms j p perm.
Proof.
  unfold rbac_get_perm_by_id, first_with_id. case_decide.
  - split; [done|]. intros [? _]. lia.
  - rewrite list_find_Some. simpl. split; [|tauto].
    intros ?. split; [lia|done].
Qed.

Lemma rbac_get_role_by_name_at st k role :
  NoDup (role_names st) → rbac_roles st !! k = Some role →
  rbac_get_role_by_name (role_name role) (rbac_roles st) = Some (k, role).
Proof.
  intros Hnd Hk. apply list_find_Some. split_and!; [done..|].
  intros k' role' Hk' Hlt Heq.
  pose proof (role_names_inj st k k' role role' Hnd Hk Hk'
                ltac:(by symmetry)). lia.
Qed.

(** C2, as amended. In a reachable store, rbac_remove_role returns 0
    exactly when a role of the store has the name and its count is 1,
    and the store it leaves is the store without that role;
    rbac_remove_permission returns 0 exactly when the id is not
    negative, a permission of the store has the id and the first such
    permission in list order has count 1, and the store it leaves is
    the store without that permission; a removal that does not return 0
    returns -EINVAL and changes nothing.  After a successful bind of an
    id, the permission with that id is in the store with a count that
    is not 1 and removing the id returns -EINVAL and changes nothing;
    unbinding the slot the bind wrote gives back the store as it was
    before the bind, and there, if the count is 1, removing the id
    returns 0 and leaves the store without the permission. *)
Theorem rbac_deletion_guard st :
  reachable st →
  (∀ name st',
     rbac_remove_role name st = Done 0 st' ↔
     ∃ k role, rbac_roles st !! k = Some role ∧ role_name role = name ∧
       role_ref role = 1 ∧ st' = set_roles st (delete k (rbac_roles st))) ∧
  (∀ id st',
     rbac_remove_permission id st = Done 0 st' ↔
     0 ≤ id ∧
     ∃ j p perm, first_with_id id (rbac_perms st) j p perm ∧
       perm_ref perm = 1 ∧
       st' = {| next_perm_id := next_perm_id st; rbac_roles := rbac_roles st;
                rbac_perms := delete j (rbac_perms st) |}) ∧
  (∀ name ret st',
     rbac_remove_role name st = Done ret st' → ret ≠ 0 →
     ret = - EINVAL ∧ st' = st) ∧
  (∀ id ret st',
     rbac_remove_permission id st = Done ret st' → ret ≠ 0 →
     ret = - EINVAL ∧ st' = st) ∧
  (∀ id name st1,
     rbac_bind_permission id name st = Done 0 st1 →
     ∃ j p perm i,
       0 ≤ id ∧ first_with_id id (rbac_perms st) j p perm ∧
       first_with_id id (rbac_perms st1) j p
         (set_ref perm (perm_ref perm + 1)) ∧
       perm_ref perm + 1 ≠ 1 ∧
       rbac_remove_permission id st1 = Done (- EINVAL) st1 ∧
       rbac_unbind_permission (Z.of_nat i) name st1 = Done 0 st ∧
       (perm_ref perm = 1 →
        rbac_remove_permission id st =
          Done 0 {| next_perm_id := next_perm_id st;
                    rbac_roles := rbac_roles st;
                    rbac_perms := delete j (rbac_perms st) |})).
Proof.
  intros Hreach. pose proof (reachable_wf _ Hreach) as Hwf.
  pose proof (reachable_role_names _ Hreach) as [Hnd _].
  assert (∀ id j p perm,
    rbac_get_perm_by_id id (rbac_perms st) = Some (j, (p, perm)) →
    perm_ref perm = 1 →
    rbac_remove_permission id st =
      Done 0 {| next_perm_id := next_perm_id st; rbac_roles := rbac_roles st;
                rbac_perms := delete j (rbac_perms st) |}) as Hremove.
  { intros id j p perm Hp Hone. unfold rbac_remove_permission. rewrite Hp.
    unfold refcount_read. rewrite decide_False by lia. done. }
  split_and!.
  - intros name st'. unfold rbac_remove_role. split.
    + destruct (rbac_get_role_by_name _ _) as [[k role]|] eqn:Hfind; [|done].
      apply list_find_Some in Hfind as (Hk & Hname & _).
      unfold refcount_read. case_decide as Hone; [done|]. intros [= <-].
      exists k, role. split_and!; [done..|lia|done].
    + intros (k & role & Hk & <- & Hone & ->).
      rewrite (rbac_get_role_by_name_at st k role Hnd Hk).
      unfold refcount_read. rewrite decide_False by lia. done.
  - intros id st'. split.
    + unfold rbac_remove_permission.
      destruct (rbac_get_perm_by_id _ _) as [[j [p perm]]|] eqn:Hp; [|done].
      apply rbac_get_perm_by_id_first in Hp as [Hpos Hfirst].
      unfold refcount_read. case_decide as Hone; [done|]. intros [= <-].
      split; [done|]. exists j, p, perm. split_and!; [done|lia|done].
    + intros (Hpos & j & p & perm & Hfirst & Hone & ->).
      apply (Hremove id j p perm); [|done].
      by apply rbac_get_perm_by_id_first.
  - intros name ret st'. unfold rbac_remove_role.
    repeat case_match; intros [= <- <-]; done.
  - intros id ret st'. unfold rbac_remove_permission.
    repeat case_match; intros [= <- <-]; done.
  - intros id name st1
      [([=] & _)
      |(_ & j & p & perm & k & role & i & Hp & Hr & Hi & Hempty & _ & ->)]
      %rbac_bind_permission_inv.
    pose proof Hp as [Hpos Hfirst]%rbac_get_perm_by_id_first.
    pose proof Hfirst as (Hj & _).
    pose proof (rbac_get_perm_by_id_insert _ _ _ _ _ (perm_ref perm + 1) Hp)
      as Hp1.
    pose proof (wf_ref_pos _ _ _ Hwf (list_elem_of_lookup_2 _ _ _ Hj)).
    exists j, p, perm, i. split_and!; [done..| | | | |].
    + simpl. by apply rbac_get_perm_by_id_first in Hp1 as [_ ?].
    + lia.
    + unfold rbac_remove_permission. simpl. rewrite Hp1. simpl.
      unfold refcount_read. rewrite decide_True by lia. done.
    + by eapply rbac_bind_unbind.
    + intros Hone. by apply (Hremove id j p perm).
Qed.

(** C6, as amended. In a reachable store, for a role of the store with
    two empty slots and an id that is not negative and is the id of a
    permission of the store, two binds of that id to that role both
    return 0; the first writes the lowest empty slot, the second the
    lowest slot that is empty after the first, which is a different
    slot; both slots then hold the first permission in list order with
    that id, whose count is one higher after the first call and two
    higher after the second. *)
Theorem rbac_bind_twice st id role :
  reachable st → role ∈ rbac_roles st →
  (∃ a b, a ≠ b ∧ role_perms role !! a = Some None ∧
     role_perms role !! b = Some None) →
  0 ≤ id → (∃ e, e ∈ rbac_perms st ∧ perm_id e.2 = id) →
  ∃ k j p perm i1 i2 st1 st2,
    rbac_roles st !! k = Some role ∧
    first_with_id id (rbac_perms st) j p perm ∧
    rbac_bind_permission id (role_name role) st = Done 0 st1 ∧
    rbac_bind_permission id (role_name role) st1 = Done 0 st2 ∧
    i1 ≠ i2 ∧
    first_fit (role_perms role) i1 ∧
    first_fit (<[i1 := Some p]> (role_perms role)) i2 ∧
    rbac_roles st1 =
      <[k := set_perms role (<[i1 := Some p]> (role_perms role))]>
        (rbac_roles st) ∧
    rbac_roles st2 =
      <[k := set_perms role
               (<[i2 := Some p]> (<[i1 := Some p]> (role_perms role)))]>
        (rbac_roles st) ∧
    rbac_perms st1 =
      <[j := (p, set_ref perm (perm_ref perm + 1))]> (rbac_perms st) ∧
    rbac_perms st2 =
      <[j := (p, set_ref perm (perm_ref perm + 2))]> (rbac_perms st).
Proof.
  intros Hreach [k Hk]%list_elem_of_lookup_1 Hempty Hpos Hpresent.
  pose proof (reachable_role_names _ Hreach) as [Hnd _].
  pose proof (rbac_get_role_by_name_at st k role Hnd Hk) as Hr.
  apply (rbac_get_perm_by_id_present id (rbac_perms st) Hpos) in Hpresent
    as [[j [p perm]] Hp].
  destruct (rbac_bind_twice_found st id (role_name role) j p perm k role
              Hreach Hp Hr Hempty) as (i1 & i2 & st1 & st2 & Hall).
  exists k, j, p, perm, i1, i2, st1, st2.
  split; [done|]. split; [|exact Hall].
  by apply rbac_get_perm_by_id_first in Hp as [_ ?].
Qed.

End Rbac.

(** ** The scenario of the specification, evaluated *)

(** The scenario of the specification: after the bind permission 0
    cannot be removed; after the unbind of slot 0 it can. *)
Lemma rbac_deletion_guard_scenario :
  reachable 16 4 auditor_unbound ∧
  rbac_bind_permission 4 0 "auditor" auditor_unbound = Done 0 auditor_bound ∧
  rbac_remove_permission 0 auditor_bound = Done (- EINVAL) auditor_bound ∧
  rbac_unbind_permission 4 0 "auditor" auditor_bound = Done 0 auditor_unbound ∧
  rbac_remove_permission 0 auditor_unbound = Done 0 auditor_alone.
Proof.
  assert (reachable 16 4 auditor_unbound) as Hreach
    by (exists setup_ops; reflexivity).
  split; [exact Hreach|]. split; [reflexivity|].
  destruct (rbac_deletion_guard 16 4 auditor_unbound Hreach)
    as (_ & Hperm & _ & _ & Hbound).
  split.
  - destruct (Hbound 0 "auditor" auditor_bound eq_refl)
      as (j & p & perm & i & _ & _ & _ & _ & Hrefused & _).
    exact Hrefused.
  - split; [reflexivity|].
    apply (proj2 (Hperm 0 auditor_alone)). split; [lia|].
    exists 0%nat, 1%positive, (shadow_perm 1).
    split; [|split; reflexivity].
    split; [reflexivity|]. split; [reflexivity|].
    intros j' e' _ Hlt. lia.
Defined.

(** C2 fails on the code: in the reachable store [wrapped] a permission
    with id INT_MIN is in the store with count 1, and removing that id
    returns -EINVAL. *)
Lemma rbac_deletion_guard_negative_id :
  reachable 16 4 wrapped ∧
  (1%positive, wrapped_perm) ∈ rbac_perms wrapped ∧
  perm_id wrapped_perm = INT_MIN ∧ perm_ref wrapped_perm = 1 ∧
  rbac_remove_permission INT_MIN wrapped = Done (- EINVAL) wrapped.
Proof.
  split; [exists wrap_ops; apply wrap_ops_run|].
  split; [apply list_elem_of_here|]. by split_and!.
Qed.

(** Two binds of id 0 to "auditor" fill slots 0 and 1. *)
Lemma rbac_bind_twice_scenario :
  reachable 16 4 auditor_unbound ∧
  ∃ st1 st2,
    rbac_bind_permission 4 0 "auditor" auditor_unbound = Done 0 st1 ∧
    rbac_bind_permission 4 0 "auditor" st1 = Done 0 st2 ∧
    st1 = auditor_bound ∧ st2 = auditor_bound_twice.
Proof.
  assert (reachable 16 4 auditor_unbound) as Hreach
    by (exists setup_ops; reflexivity).
  split; [exact Hreach|].
  destruct (rbac_bind_twice 16 4 auditor_unbound 0
              (auditor_role [None; None; None; None])
              Hreach (list_elem_of_here _ _))
    as (k & j & p & perm & i1 & i2 & st1 & st2 & _ & _ & Hb1 & Hb2 & _).
  { exists 0%nat, 1%nat. split; [lia|]. split; reflexivity. }
  { lia. }
  { exists (1%positive, shadow_perm 1).
    split; [apply list_elem_of_here | reflexivity]. }
  exists st1, st2. split; [exact Hb1|]. split; [exact Hb2|].
  injection Hb1 as <-. injection Hb2 as <-. split; reflexivity.
Defined.

(** C6 fails on the code: in the reachable store [wrapped_auditor] the
    role "auditor" has four empty slots and a permission with id INT_MIN
    is in the store, and binding that id to the role returns -EINVAL
    and binds nothing. *)
Lemma rbac_bind_twice_negative_id :
  reachable 16 4 wrapped_auditor ∧
  auditor_role [None; None; None; None] ∈ rbac_roles wrapped_auditor ∧
  (1%positive, wrapped_perm) ∈ rbac_perms wrapped_auditor ∧
  perm_id wrapped_perm = INT_MIN ∧
  rbac_bind_permission 4 INT_MIN "auditor" wrapped_auditor
    = Done (- EINVAL) wrapped_auditor.
Proof.
  split.
  - exists (wrap_ops ++ [AddRole "auditor" true]).
    rewrite run_app, wrap_ops_run. reflexivity.
  - split; [apply list_elem_of_here|].
    split; [apply list_elem_of_here|]. by split.
Qed.

(** Unbinding slot 0 of "auditor" gives the store before the bind. *)
Lemma rbac_unbind_by_slot_scenario :
  reachable 16 4 auditor_bound ∧ 0 ≤ 0 < Z.of_nat 4 ∧
  rbac_unbind_permission 4 0 "auditor" auditor_bound = Done 0 auditor_unbound.
Proof.
  assert (reachable 16 4 auditor_bound) as Hreach
    by (exists (setup_ops ++ [BindPermission 0 "auditor"]); reflexivity).
  assert (0 ≤ 0 < Z.of_nat 4) as Hrid by (simpl; lia).
  split; [exact Hreach|]. split; [exact Hrid|].
  destruct (rbac_unbind_by_slot 16 4 auditor_bound 0 "auditor" Hreach Hrid)
    as (_ & Hfound & _).
  destruct (Hfound 0%nat (auditor_role [Some 1%positive; None; None; None])
              eq_refl) as (slot & Hslot & Hunbind).
  injection Hslot as <-. destruct Hunbind as (j & perm & Hat & ->).
  injection Hat as <- <-. reflexivity.
Defined.

(** Removing "auditor" from the store after the bind leaves permission
    0 with count 2. *)
Lemma rbac_remove_role_frame_scenario :
  rbac_remove_role "auditor" auditor_bound = Done 0 auditor_removed ∧
  rbac_get_role_by_name "auditor" (rbac_roles auditor_bound)
    = Some (0%nat, auditor_role [Some 1%positive; None; None; None]) ∧
  rbac_perms auditor_removed = rbac_perms auditor_bound.
Proof.
  assert (rbac_remove_role "auditor" auditor_bound = Done 0 auditor_removed)
    as Hremove by reflexivity.
  split; [exact Hremove|].
  destruct (rbac_remove_role_frame "auditor" auditor_bound auditor_removed
              Hremove) as (k & role & Hfind & _ & Hperms & _).
  split; [reflexivity | exact Hperms].
Defined.

(** Three permissions get the ids 0, 1 and 2. *)
Lemma rbac_perm_ids_scenario :
  Z.of_nat (length (issued_ids 16 4 (churn 0 3) rbac_init)) ≤ 2 ^ 32 ∧
  Z.of_nat (length (issued_ids 16 4 (churn 0 3) rbac_init)) ≤ 2 ^ 31 ∧
  NoDup (issued_ids 16 4 (churn 0 3) rbac_init) ∧
  strictly_increasing (issued_ids 16 4 (churn 0 3) rbac_init).
Proof.
  assert (Z.of_nat (length (issued_ids 16 4 (churn 0 3) rbac_init)) ≤ 2 ^ 32)
    as Hlen by (vm_compute; discriminate).
  assert (Z.of_nat (length (issued_ids 16 4 (churn 0 3) rbac_init)) ≤ 2 ^ 31)
    as Hlen' by (vm_compute; discriminate).
  split; [exact Hlen|]. split; [exact Hlen'|].
  destruct (rbac_perm_ids_increasing 16 4 (churn 0 3) Hlen) as [Hnodup Hinc].
  split; [exact Hnodup|]. exact (proj1 (Hinc Hlen')).
Defined.

(** C8 fails on the code: with array sizes 16 and 4, the ids of the run
    [wrap_ops] are not strictly increasing. *)
Lemma rbac_perm_ids_not_increasing :
  ¬ ∀ ops, strictly_increasing (issued_ids 16 4 ops rbac_init).
Proof. exact (rbac_perm_ids_wrap 16 4). Qed.

(** The leak with array sizes 16 and 4. *)
Lemma rbac_remove_role_leaks_scenario :
  (0 < 4)%nat ∧ (7 < 16)%nat ∧
  ∃ st, run 16 4 leak_ops rbac_init = Some st ∧ ¬ refcount_accounting st.
Proof.
  assert (0 < 4)%nat as Hmax by lia.
  assert (7 < 16)%nat as Hlen by lia.
  split; [exact Hmax|]. split; [exact Hlen|].
  destruct (rbac_remove_role_leaks 16 4 Hmax Hlen)
    as (st & perm & Hrun & _ & _ & _ & _ & Hleak).
  exists st. split; [exact Hrun | exact Hleak].
Defined.

(** The listing of the store after the bind. *)
Lemma rbac_get_roles_info_scenario :
  (0 < 4)%nat ∧
  rbac_get_roles_info 4 auditor_bound =
    (0, "auditor" +:+ LF +:+ TAB +:+ "perm[0] with no permission bind" +:+ LF).
Proof.
  assert (0 < 4)%nat as Hmax by lia.
  split; [exact Hmax|].
  exact (rbac_get_roles_info_slot0 4 auditor_bound
           (auditor_role [Some 1%positive; None; None; None]) 1%positive
           Hmax eq_refl eq_refl).
Defined.

(** A name of 16 characters does not fit name[16]. *)
Lemma rbac_add_role_overlong_scenario :
  (16 ≤ String.length "administrator-xx")%nat ∧
  rbac_add_role 16 4 "administrator-xx" true rbac_init
    = Undefined BufferOverflow.
Proof.
  assert (16 ≤ String.length "administrator-xx")%nat as Hlen
    by (simpl; lia).
  split; [exact Hlen|].
  exact (rbac_add_role_overlong 16 4 "administrator-xx" true rbac_init
           Hlen eq_refl).
Defined.

(** Slot -1 and slot 4 of "auditor". *)
Lemma rbac_unbind_permission_out_of_range_scenario :
  rbac_unbind_permission 4 (-1) "auditor" auditor_bound
    = Undefined OutOfBounds ∧
  rbac_unbind_permission 4 4 "auditor" auditor_bound = Undefined OutOfBounds.
Proof.
  split.
  - apply (rbac_unbind_permission_out_of_range 4 (-1) "auditor" auditor_bound
             0%nat (auditor_role [Some 1%positive; None; None; None]) eq_refl).
    left. lia.
  - apply (rbac_unbind_permission_out_of_range 4 4 "auditor" auditor_bound
             0%nat (auditor_role [Some 1%positive; None; None; None]) eq_refl).
    right. simpl. lia.
Defined.


(** ** Further scenarios, evaluated *)

Lemma rbac_role_names_unique_scenario :
  reachable 16 4 auditor_bound ∧
  NoDup (role_names auditor_bound) ∧
  ∃ k, rbac_get_role_by_name "auditor" (rbac_roles auditor_bound)
       = Some (k, auditor_role [Some 1%positive; None; None; None]).
Proof.
  assert (reachable 16 4 auditor_bound) as Hreach
    by (exists (setup_ops ++ [BindPermission 0 "auditor"]); reflexivity).
  split; [exact Hreach|].
  destruct (rbac_role_names_unique 16 4 auditor_bound Hreach) as [Hnd Hfind].
  split; [exact Hnd|].
  apply (Hfind (auditor_role [Some 1%positive; None; None; None])).
  apply list_elem_of_here.
Defined.

Lemma rbac_remove_role_present_scenario :
  reachable 16 4 auditor_bound ∧
  ∃ st', rbac_remove_role "auditor" auditor_bound = Done 0 st' ∧
    rbac_get_role_by_name "auditor" (rbac_roles st') = None.
Proof.
  assert (reachable 16 4 auditor_bound) as Hreach
    by (exists (setup_ops ++ [BindPermission 0 "auditor"]); reflexivity).
  split; [exact Hreach|].
  destruct (rbac_remove_role_present 16 4 auditor_bound
              (auditor_role [Some 1%positive; None; None; None]) Hreach
              (list_elem_of_here _ _)) as (st' & Hremove & Hgone & _).
  exists st'. split; [exact Hremove | exact Hgone].
Defined.

Lemma rbac_slots_live_scenario :
  reachable 16 4 auditor_bound ∧ 0 ≤ 3 < Z.of_nat 4 ∧
  ∃ ret st', rbac_unbind_permission 4 3 "auditor" auditor_bound = Done ret st'.
Proof.
  assert (reachable 16 4 auditor_bound) as Hreach
    by (exists (setup_ops ++ [BindPermission 0 "auditor"]); reflexivity).
  assert (0 ≤ 3 < Z.of_nat 4) as Hrid by (simpl; lia).
  split; [exact Hreach|]. split; [exact Hrid|].
  exact (proj2 (rbac_slots_live 16 4 auditor_bound Hreach) 3 "auditor" Hrid).
Defined.

Lemma rbac_remove_permission_bound_scenario :
  reachable 16 4 auditor_bound ∧
  rbac_remove_permission 0 auditor_bound = Done (- EINVAL) auditor_bound.
Proof.
  assert (reachable 16 4 auditor_bound) as Hreach
    by (exists (setup_ops ++ [BindPermission 0 "auditor"]); reflexivity).
  split; [exact Hreach|].
  apply (rbac_remove_permission_bound 16 4 auditor_bound 0 0%nat 1%positive
           (shadow_perm 2) (auditor_role [Some 1%positive; None; None; None])
           Hreach eq_refl); apply list_elem_of_here.
Defined.

Lemma rbac_refcount_exact_scenario :
  run 16 4 (setup_ops ++ [BindPermission 0 "auditor"]) rbac_init
    = Some auditor_bound ∧
  refcount_accounting auditor_bound.
Proof.
  assert (run 16 4 (setup_ops ++ [BindPermission 0 "auditor"]) rbac_init
          = Some auditor_bound) as Hrun by reflexivity.
  split; [exact Hrun|].
  apply (rbac_refcount_exact 16 4 _ _ Hrun). repeat constructor.
Defined.

Lemma rbac_leak_permanent_scenario :
  reachable 16 4 auditor_removed ∧
  run 16 4 [RemovePermission 0; AddRole "auditor" true] auditor_removed
    = Some auditor_again ∧
  ∃ perm', (1%positive, perm') ∈ rbac_perms auditor_again ∧
    perm_id perm' = 0 ∧
    1 + role_refs 1%positive (rbac_roles auditor_again) < perm_ref perm'.
Proof.
  assert (reachable 16 4 auditor_removed) as Hreach
    by (exists leak_ops; reflexivity).
  assert (run 16 4 [RemovePermission 0; AddRole "auditor" true] auditor_removed
          = Some auditor_again) as Hrun by reflexivity.
  split; [exact Hreach|]. split; [exact Hrun|].
  apply (rbac_leak_permanent 16 4 auditor_removed 1%positive (shadow_perm 2)
           [RemovePermission 0; AddRole "auditor" true] auditor_again Hreach
           (list_elem_of_here _ _)); [|exact Hrun].
  simpl. lia.
Defined.

Lemma rbac_role_capacity_scenario :
  reachable 16 4 auditor_unbound ∧
  ∃ st', run 16 4 (replicate 4 (BindPermission 0 "auditor")) auditor_unbound
         = Some st' ∧
    rbac_roles st' = rbac_roles auditor_full ∧
    rbac_perms st' = rbac_perms auditor_full ∧
    ∀ id', rbac_bind_permission 4 id' "auditor" st' = Done (- EINVAL) st'.
Proof.
  assert (reachable 16 4 auditor_unbound) as Hreach
    by (exists setup_ops; reflexivity).
  split; [exact Hreach|].
  destruct (rbac_role_capacity 16 4 auditor_unbound 0 "auditor" 0%nat
              1%positive (shadow_perm 1) 0%nat
              (auditor_role [None; None; None; None]) Hreach eq_refl eq_refl)
    as (st' & Hrun & Hroles & Hperms & Hfull).
  exists st'. split; [exact Hrun|]. split; [exact Hroles|].
  split; [exact Hperms | exact Hfull].
Defined.

Lemma rbac_perm_ids_unique_scenario :
  run 16 4 setup_ops rbac_init = Some auditor_unbound ∧
  Z.of_nat (length (issued_ids 16 4 setup_ops rbac_init)) < 2 ^ 31 ∧
  NoDup (perm_ids auditor_unbound) ∧
  ∃ j, rbac_get_perm_by_id 0 (rbac_perms auditor_unbound)
       = Some (j, (1%positive, shadow_perm 1)).
Proof.
  assert (run 16 4 setup_ops rbac_init = Some auditor_unbound) as Hrun
    by reflexivity.
  assert (Z.of_nat (length (issued_ids 16 4 setup_ops rbac_init)) < 2 ^ 31)
    as Hlen by (vm_compute; reflexivity).
  split; [exact Hrun|]. split; [exact Hlen|].
  destruct (rbac_perm_ids_unique 16 4 setup_ops auditor_unbound Hrun Hlen)
    as (Hnd & _ & _ & Hfind).
  split; [exact Hnd|].
  apply (Hfind 1%positive (shadow_perm 1)). apply list_elem_of_here.
Defined.

Lemma rbac_add_role_found_scenario :
  rbac_add_role 16 4 "auditor" true rbac_init =
    Done 0 (set_roles rbac_init [auditor_role [None; None; None; None]]) ∧
  (rbac_get_roles_info 4
     (set_roles rbac_init [auditor_role [None; None; None; None]])).2
  = "auditor with no permission bind" +:+ LF.
Proof.
  assert (rbac_add_role 16 4 "auditor" true rbac_init =
            Done 0 (set_roles rbac_init [auditor_role [None; None; None; None]]))
    as Hadd by reflexivity.
  split; [exact Hadd|].
  exact (proj2 (proj2 (rbac_add_role_found 16 4 "auditor" true rbac_init _
                         Hadd))).
Defined.

Lemma rbac_add_permission_found_scenario :
  0 ≤ next_perm_id rbac_init ∧
  rbac_add_permission ACC_DENY OP_WRITE (Some "/etc/shadow") (Some 1%positive)
    rbac_init
  = Done 0 {| next_perm_id := 1; rbac_roles := [];
              rbac_perms := [(1%positive, shadow_perm 1)] |} ∧
  (rbac_get_perms_info
     {| next_perm_id := 1; rbac_roles := [];
        rbac_perms := [(1%positive, shadow_perm 1)] |}).2
  = "[0]: deny write on /etc/shadow" +:+ LF.
Proof.
  assert (0 ≤ next_perm_id rbac_init) as Hpos by (simpl; lia).
  assert (¬ (next_perm_id rbac_init ∈ perm_ids rbac_init)) as Hnew
    by (intros Hin; inversion Hin).
  assert (rbac_add_permission ACC_DENY OP_WRITE (Some "/etc/shadow")
            (Some 1%positive) rbac_init
          = Done 0 {| next_perm_id := 1; rbac_roles := [];
                      rbac_perms := [(1%positive, shadow_perm 1)] |})
    as Hadd by reflexivity.
  split; [exact Hpos|]. split; [exact Hadd|].
  destruct (rbac_add_permission_found _ _ _ _ _ _ Hpos Hnew Hadd)
    as (p & _ & _ & _ & Hlist).
  exact Hlist.
Defined.

Lemma rbac_negative_id_permanent_scenario :
  reachable 16 4 wrapped ∧ perm_id wrapped_perm < 0 ∧
  rbac_remove_permission INT_MIN wrapped = Done (- EINVAL) wrapped.
Proof.
  assert (reachable 16 4 wrapped) as Hreach
    by (exists wrap_ops; apply wrap_ops_run).
  assert (perm_id wrapped_perm < 0) as Hneg by reflexivity.
  split; [exact Hreach|]. split; [exact Hneg|].
  exact (proj1 (proj2 (rbac_negative_id_permanent 16 4 wrapped 1%positive
                         wrapped_perm [] wrapped Hreach
                         (list_elem_of_here _ _) Hneg eq_refl))).
Defined.

Lemma rbac_unbind_frees_slot_scenario :
  reachable 16 4 auditor_full ∧ 0 ≤ 2 < Z.of_nat 4 ∧
  ∃ st1 st2 role2,
    rbac_unbind_permission 4 2 "auditor" auditor_full = Done 0 st1 ∧
    rbac_bind_permission 4 0 "auditor" st1 = Done 0 st2 ∧
    rbac_get_role_by_name "auditor" (rbac_roles st2) = Some (0%nat, role2) ∧
    role_perms role2 =
      [Some 1%positive; Some 1%positive; Some 1%positive; Some 1%positive].
Proof.
  assert (reachable 16 4 auditor_full) as Hreach
    by (exists (setup_ops ++ replicate 4 (BindPermission 0 "auditor"));
        reflexivity).
  assert (0 ≤ 2 < Z.of_nat 4) as Hrid by (simpl; lia).
  split; [exact Hreach|]. split; [exact Hrid|].
  exact (rbac_unbind_frees_slot 16 4 auditor_full 2 "auditor" 0 0%nat
           (auditor_role [Some 1%positive; Some 1%positive;
                          Some 1%positive; Some 1%positive])
           0%nat 1%positive (shadow_perm 5) Hreach Hrid eq_refl eq_refl
           eq_refl).
Defined.

Lemma rbac_remove_permission_gone_scenario :
  run 16 4 setup_ops rbac_init = Some auditor_unbound ∧
  Z.of_nat (length (issued_ids 16 4 setup_ops rbac_init)) < 2 ^ 31 ∧
  rbac_remove_permission 0 auditor_unbound
    = Done 0 (set_roles (idle 1) (rbac_roles auditor_unbound)) ∧
  rbac_get_perm_by_id 0
    (rbac_perms (set_roles (idle 1) (rbac_roles auditor_unbound))) = None.
Proof.
  assert (run 16 4 setup_ops rbac_init = Some auditor_unbound) as Hrun
    by reflexivity.
  assert (Z.of_nat (length (issued_ids 16 4 setup_ops rbac_init)) < 2 ^ 31)
    as Hlen by (vm_compute; reflexivity).
  assert (rbac_remove_permission 0 auditor_unbound
          = Done 0 (set_roles (idle 1) (rbac_roles auditor_unbound)))
    as Hremove by reflexivity.
  split; [exact Hrun|]. split; [exact Hlen|]. split; [exact Hremove|].
  exact (proj1 (rbac_remove_permission_gone 16 4 setup_ops auditor_unbound 0 _
                  Hrun Hlen Hremove)).
Defined.

Lemma rbac_refcount_lower_bound_scenario :
  reachable 16 4 auditor_removed ∧
  1 + role_refs 1%positive (rbac_roles auditor_removed)
    ≤ perm_ref (shadow_perm 2).
Proof.
  assert (reachable 16 4 auditor_removed) as Hreach
    by (exists leak_ops; reflexivity).
  split; [exact Hreach|].
  apply (rbac_refcount_lower_bound 16 4 auditor_removed 1%positive
           (shadow_perm 2) Hreach).
  apply list_elem_of_here.
Defined.
